(** * Map-animation editor/player (mapper/script.js): model and properties

    A shallow embedding of [src/mapper/script.js].

    Conventions of the model.
    - JavaScript numbers are exact rationals extended by [NaN]
      ([num]); rounding, signed zero and the infinities of IEEE doubles
      are not represented.  Geographic coordinates and pixel
      coordinates are finite rationals.
    - The map renderer (Leaflet), the geodesy helper (Turf) and
      [Math.sqrt] are external: they appear as the classes [Leaflet],
      [Turf] and [JSMath], and every definition is generic in them.
    - Calls into the render host, timers and awaits are recorded, in
      program order, in the [w_log] of the [world]; what the script
      reads back (map view, registry, local storage, clock) is state.
    - The callback of a timer is recorded, with the host calls it will
      make, when the timer is set; the map view that it will find is
      taken to be the view at that moment.
    - Fixed style constants of layers (weights, radii, opacities) are
      left out of [layer]; geometry, colours, fill flag and [_animId]
      are kept.
    - Entries of the registry are the typed records that the toolbar
      handlers write.  A stored JSON text is represented by the
      registry that [JSON.parse] reads from it.
    - Not modelled: the visibility classes of toolbar, sidebar and
      overlay, the Play and Delete buttons of a sidebar entry, file
      import and export, and the geocoding helpers. *)

From Stdlib Require Import QArith Qabs Qround Qminmax Lqa ZArith Lia.
From stdpp Require Import base option list strings pretty gmap.

Local Open Scope Q_scope.

(** ** Numbers *)

Module Num.

Inductive num : Type :=
| NaN
| Fin (q : Q).

Definition add (a b : num) : num :=
  match a, b with
  | Fin x, Fin y => Fin (x + y)
  | _, _ => NaN
  end.

Definition mul (a b : num) : num :=
  match a, b with
  | Fin x, Fin y => Fin (x * y)
  | _, _ => NaN
  end.

(** Comparisons with [NaN] are false, as in JavaScript. *)
Definition gtb (a b : num) : bool :=
  match a, b with
  | Fin x, Fin y => negb (Qle_bool x y)
  | _, _ => false
  end.

Definition geb (a b : num) : bool :=
  match a, b with
  | Fin x, Fin y => Qle_bool y x
  | _, _ => false
  end.

(** [a || d] for a finite default [d]: the result is finite. *)
Definition or_else (a : num) (d : Q) : Q :=
  match a with
  | NaN => d
  | Fin x => if Qeq_bool x 0 then d else x
  end.

(** [a / k] for a finite non-zero constant [k]. *)
Definition div_by (a : num) (k : Q) : num :=
  match a with
  | NaN => NaN
  | Fin x => Fin (x / k)
  end.


End Num.
Export Num.

(** ** Coordinates *)

(** A GeoJSON position [[lng, lat]]. *)
Definition coord : Type := (Q * Q)%type.

Record LatLng : Type := mkLatLng { lat : Q; lng : Q }.
Record Point : Type := mkPoint { px_x : Q; px_y : Q }.

Definition toLatLng (c : coord) : LatLng := mkLatLng (snd c) (fst c).
Definition toLngLat (l : LatLng) : coord := (lng l, lat l).

(** [Math.abs(x) <= 90 && Math.abs(y) > 90], the test of every copy of
    [normalizeCoord] in the script. *)
Definition looks_swapped (x y : Q) : bool :=
  Qle_bool (Qabs x) 90 && negb (Qle_bool (Qabs y) 90).

(** [normalizeCoord] (declared locally in [splitMap], [dropMarker] and
    twice in [playAnimation], with the same body).  The guard
    [!pt || pt.length < 2] is void on a pair and [Number] is the
    identity on numbers. *)
Definition normalizeCoord (pt : coord) : coord :=
  let x := fst pt in
  let y := snd pt in
  if looks_swapped x y then (y, x) else (x, y).

Example normalizeCoord_swaps : normalizeCoord (-27.9671, 153.4) = (153.4, -27.9671).
Proof. reflexivity. Qed.

Example normalizeCoord_keeps : normalizeCoord (153.4, -27.9671) = (153.4, -27.9671).
Proof. reflexivity. Qed.

(** ** The external libraries *)

(** [L.latLngBounds(points)] and [bounds.pad(ratio)], kept symbolic. *)
Inductive bounds : Type :=
| latLngBounds (pts : list LatLng)
| pad (b : bounds) (ratio : Q).

(** The map view: centre and zoom. *)
Definition view : Type := (LatLng * num)%type.

(** What the script uses of the map renderer.  The projection between
    geographic and layer (pixel) coordinates depends on the view. *)
Class Leaflet : Type := {
  latLngToLayerPoint : view -> LatLng -> Point;
  layerPointToLatLng : view -> Point -> LatLng;
  getSize : Point;
  getBoundsCenterZoom : bounds -> view
}.

(** What the script uses of the geodesy helper. *)
Class Turf : Type := {
  (** [turf.destination(point, km, bearing).geometry.coordinates] *)
  turf_destination : coord -> Q -> Q -> coord;
  (** [turf.length(turf.lineString(points), {units:'kilometers'})] *)
  turf_length : list coord -> Q;
  (** [turf.along(turf.lineString(points), km).geometry.coordinates] *)
  turf_along : list coord -> num -> coord
}.

(** [Math.sqrt] and [parseFloat].  Of the square root, which JavaScript
    rounds, only what the script relies on is kept: the result is a
    number of the model and is not negative. *)
Class JSMath : Type := {
  Math_sqrt : Q -> Q;
  Math_sqrt_nonneg : forall x, 0 <= Math_sqrt x;
  parseFloat : string -> num
}.

(** ** Layers and the log of host calls *)

Inductive group : Type := animationLayer | keyframeLayer.

(** JavaScript [string | null]. *)
Definition jsstring : Type := option string.

(** [s || d] on strings: [null] and the empty string are falsy. *)
Definition str_or (s : jsstring) (d : string) : string :=
  match s with
  | Some EmptyString => d
  | Some t => t
  | None => d
  end.

Inductive layer : Type :=
| L_circle (centre : LatLng) (radius : num) (color : jsstring)
           (fill : bool) (animId : jsstring)
| L_circleMarker (pos : LatLng) (fillColor : jsstring) (color : string)
                 (animId : jsstring)
| L_polyline (pts : list LatLng) (color : string)
| L_polygon (pts : list LatLng) (color : string) (fillColor : jsstring)
            (fill : bool) (animId : jsstring)
| L_geoJSON (ring : list coord) (colour : string).

(** The options [{duration, padding}] of a move of the map. *)
Record move_options : Type := mkMove {
  duration : Q;
  padding : option (Q * Q)
}.

#[warnings="-register-all"]
Inductive event : Type :=
| E_fitBounds (b : bounds) (o : move_options)
| E_flyTo (c : LatLng) (zoom : num) (o : move_options)
| E_setZoom (zoom : num)
| E_await_moveend
| E_sleep (ms : Z)
| E_addLayer (g : group) (l : layer)
| E_removeLayer (g : group) (l : layer)
| E_clearLayers (g : group)
| E_map_addLayer (g : group)
| E_map_removeLayer (g : group)
| E_addLatLng (l : layer) (p : LatLng)
| E_setLatLng (l : layer) (p : LatLng)
| E_setTimeout (ms : Z) (callback : list event)
| E_nextFrame (ms : Z)
| E_warn (msg : string)
| E_alert (msg : string).

(** ** The animation registry *)

(** JavaScript [number | null]. *)
Definition jsnumber : Type := option num.

(** [Number(v)] on a number or [null]. *)
Definition Number (v : jsnumber) : num :=
  match v with
  | Some n => n
  | None => Fin 0
  end.

Inductive params : Type :=
| P_circle (centre : coord) (radius : jsnumber) (color : jsstring)
| P_split (a b : coord) (side : jsstring) (color : jsstring)
| P_route (points : list coord) (speed : jsnumber) (color : jsstring)
| P_polygon (points : list coord) (color : jsstring)
| P_marker (point : coord) (color : jsstring)
| P_keyframe (center : coord) (zoom : jsnumber).

(** An entry [{type, id, params}]; [type] selects the shape of
    [params], so it is read off the constructor. *)
Record animation : Type := mkAnimation { a_id : string; a_params : params }.

Definition a_type (a : animation) : string :=
  match a_params a with
  | P_circle _ _ _ => "circle"
  | P_split _ _ _ _ => "split"
  | P_route _ _ _ => "route"
  | P_polygon _ _ => "polygon"
  | P_marker _ _ => "marker"
  | P_keyframe _ _ => "keyframe"
  end.

(** ** Local storage and JSON *)

(** A stored text is represented by what [JSON.parse] makes of it. *)
Inductive stored : Type :=
| Text_array (l : list animation)
| Text_not_array
| Text_malformed
| Text_empty.

(** [JSON.stringify] writes [NaN] as [null]; everything else of an
    entry is written as it is. *)
Definition scrub_number (v : jsnumber) : jsnumber :=
  match v with
  | Some NaN => None
  | _ => v
  end.

Definition scrub_params (p : params) : params :=
  match p with
  | P_circle c r col => P_circle c (scrub_number r) col
  | P_route pts s col => P_route pts (scrub_number s) col
  | P_keyframe c z => P_keyframe c (scrub_number z)
  | _ => p
  end.

Definition scrub (a : animation) : animation :=
  mkAnimation (a_id a) (scrub_params (a_params a)).

(** An entry is written to JSON without loss when none of its numbers
    is [NaN]. *)
Definition serialisable_number (v : jsnumber) : bool :=
  match v with
  | Some NaN => false
  | _ => true
  end.

Definition serialisable (a : animation) : bool :=
  match a_params a with
  | P_circle _ radius _ => serialisable_number radius
  | P_route _ speed _ => serialisable_number speed
  | P_keyframe _ zoom => serialisable_number zoom
  | _ => true
  end.

Definition JSON_stringify (l : list animation) : stored :=
  Text_array (scrub <$> l).

Definition STORAGE_KEY : string := "map_animations_v1".
Definition FLY_DURATION : Q := 2.

(** ** The world and the monad of the script *)

Inductive mode : Type := editor | viewer.

Record world : Type := mkWorld {
  w_view : view;                      (* map.getCenter(), map.getZoom() *)
  w_target : option view;             (* a transition under way *)
  w_keyframes_shown : bool;           (* map.hasLayer(keyframeLayer) *)
  w_mode : mode;                      (* ui.mode *)
  w_animations : list animation;      (* ui.animations *)
  w_animList : list string;           (* labels of the sidebar list *)
  w_storage : gmap string stored;     (* localStorage *)
  w_storage_full : bool;              (* setItem raises *)
  w_now : N;                          (* Date.now() *)
  w_log : list event                  (* host calls, oldest first *)
}.

Inductive error : Type := Error (msg : string).

Inductive outcome (A : Type) : Type :=
| Ret (a : A)
| Throw (e : error)
| Pending.
Arguments Ret {A} a.
Arguments Throw {A} e.
Arguments Pending {A}.

Definition M (A : Type) : Type := world -> outcome A * world.

Definition ret {A} (a : A) : M A := fun w => (Ret a, w).
Definition throw {A} (e : error) : M A := fun w => (Throw e, w).
Definition never {A} : M A := fun w => (Pending, w).

Definition bind {A B} (m : M A) (k : A -> M B) : M B :=
  fun w =>
    match m w with
    | (Ret a, w') => k a w'
    | (Throw e, w') => (Throw e, w')
    | (Pending, w') => (Pending, w')
    end.

Definition try_catch {A} (m : M A) (h : error -> M A) : M A :=
  fun w =>
    match m w with
    | (Throw e, w') => h e w'
    | r => r
    end.

#[export] Instance M_ret : MRet M := @ret.
#[export] Instance M_bind : MBind M := fun A B k m => bind m k.

Definition get : M world := fun w => (Ret w, w).
Definition modify (f : world -> world) : M unit := fun w => (Ret tt, f w).

Definition set_log (f : list event -> list event) (w : world) : world :=
  mkWorld (w_view w) (w_target w) (w_keyframes_shown w) (w_mode w)
          (w_animations w) (w_animList w) (w_storage w) (w_storage_full w)
          (w_now w) (f (w_log w)).

Definition set_view (v : view) (t : option view) (w : world) : world :=
  mkWorld v t (w_keyframes_shown w) (w_mode w)
          (w_animations w) (w_animList w) (w_storage w) (w_storage_full w)
          (w_now w) (w_log w).

Definition set_keyframes_shown (b : bool) (w : world) : world :=
  mkWorld (w_view w) (w_target w) b (w_mode w)
          (w_animations w) (w_animList w) (w_storage w) (w_storage_full w)
          (w_now w) (w_log w).

Definition set_mode (m : mode) (w : world) : world :=
  mkWorld (w_view w) (w_target w) (w_keyframes_shown w) m
          (w_animations w) (w_animList w) (w_storage w) (w_storage_full w)
          (w_now w) (w_log w).

Definition set_animations (l : list animation) (w : world) : world :=
  mkWorld (w_view w) (w_target w) (w_keyframes_shown w) (w_mode w)
          l (w_animList w) (w_storage w) (w_storage_full w)
          (w_now w) (w_log w).

Definition set_animList (l : list string) (w : world) : world :=
  mkWorld (w_view w) (w_target w) (w_keyframes_shown w) (w_mode w)
          (w_animations w) l (w_storage w) (w_storage_full w)
          (w_now w) (w_log w).

Definition set_storage (s : gmap string stored) (w : world) : world :=
  mkWorld (w_view w) (w_target w) (w_keyframes_shown w) (w_mode w)
          (w_animations w) (w_animList w) s (w_storage_full w)
          (w_now w) (w_log w).

Definition emit (e : event) : M unit := modify (set_log (fun l => l ++ [e])).

Definition when (b : bool) (m : M unit) : M unit := if b then m else ret tt.

Fixpoint for_each {A} (l : list A) (body : A -> M unit) : M unit :=
  match l with
  | [] => ret tt
  | a :: l' => body a ;; for_each l' body
  end.

(** The outcome of a computation and the world it leaves. *)
Definition result {A} (m : M A) (w : world) : outcome A := fst (m w).
Definition after {A} (m : M A) (w : world) : world := snd (m w).

(** ** Relations between the worlds before and after *)

(** [respects R m]: however [m] ends, the world it leaves is related by
    [R] to the world it found. *)
Definition respects {A} (R : relation world) (m : M A) : Prop :=
  forall w, R w (after m w).

(** Two relations: a part [f] of the world is the same, and the log
    has only grown. *)
Definition same {B} (f : world -> B) : relation world := fun w w' => f w' = f w.
Definition log_grows : relation world := fun w w' => w_log w `prefix_of` w_log w'.

Abbreviation preserves f := (respects (same f)).
Abbreviation extends_log := (respects log_grows).

(** A relation is [Cosmetic] when it holds across every change of the
    log by one more event and of the map view: what the drawing and
    playback code does to the world. *)
Class Cosmetic (R : relation world) : Prop := {
  cosmetic_log : forall w e, R w (set_log (fun l => l ++ [e]) w);
  cosmetic_view : forall w v t, R w (set_view v t w)
}.

(** The host calls of the script. *)

Definition addLayer (g : group) (l : layer) : M unit := emit (E_addLayer g l).
Definition removeLayer (g : group) (l : layer) : M unit := emit (E_removeLayer g l).
Definition clearLayers (g : group) : M unit := emit (E_clearLayers g).

(** [setTimeout(callback, ms)]: the callback is recorded with the host
    calls it will make. *)
Definition setTimeout (callback : list event) (ms : Z) : M unit :=
  emit (E_setTimeout ms callback).

(** [await new Promise(r => setTimeout(r, ms))] *)
Definition sleep (ms : Z) : M unit := emit (E_sleep ms).

(** [await new Promise(resolve => map.once('moveend', resolve))]: the
    transition under way, if any, is complete afterwards. *)
Definition await_moveend : M unit :=
  emit E_await_moveend ;;
  modify (fun w => match w_target w with
                   | Some v => set_view v None w
                   | None => w
                   end).

Definition flyTo (c : LatLng) (zoom : num) (o : move_options) : M unit :=
  emit (E_flyTo c zoom o) ;;
  modify (fun w => set_view (w_view w) (Some (c, zoom)) w).

Definition setZoom (zoom : num) : M unit :=
  emit (E_setZoom zoom) ;;
  modify (fun w => set_view (fst (w_view w), zoom) None w).

Definition Date_now : M N := w ← get; mret (w_now w).
Definition getCenter : M LatLng := w ← get; mret (fst (w_view w)).
Definition getZoom : M num := w ← get; mret (snd (w_view w)).
Definition getView : M view := w ← get; mret (w_view w).

(** The [opts] argument of the drawing primitives. *)
Record options : Type := mkOptions {
  o_id : jsstring;
  o_color : jsstring;
  o_outlineColor : jsstring;
  o_lineColor : jsstring;
  o_fillColor : jsstring
}.

Definition no_opts : options := mkOptions None None None None None.
Definition opts_id (id : string) : options := mkOptions (Some id) None None None None.
Definition opts_color (c : jsstring) : options := mkOptions None c None None None.

(** ** Geometry of the half-plane split *)


(** [s || 1] on a finite number. *)
Definition or_one (s : Q) : Q := if Qeq_bool s 0 then 1 else s.

Record split_geometry : Type := mkSplit {
  midpoint : coord;
  aPt : Point;
  bPt : Point;
  midPt : Point;
  perp : Q * Q;            (* [px, py] after normalisation *)
  extend : Q;
  p1Pixel : Point;
  p2Pixel : Point
}.

Record shading : Type := mkShading {
  normal : Q * Q;          (* [nx, ny] after orientation *)
  bigPx : Q;
  p1_far : Point;
  p2_far : Point;
  p1_far_b : Point;
  p2_far_b : Point
}.

(** What the user does while a handler waits: clicks on the map and on
    the two buttons of the overlay. *)
Inductive ui_event : Type :=
| Click_map (latlng : LatLng)
| Click_stop
| Click_cancel.

Section Script.
Context `{!Leaflet, !Turf, !JSMath}.

(** Lines 62-99 of [splitMap]: midpoint, pixel positions, the unit
    perpendicular and the two ends of the split line, for points
    already normalised. *)
Definition splitGeometry (v : view) (pointA pointB : coord) : split_geometry :=
  let midpoint := ((fst pointA + fst pointB) / 2, (snd pointA + snd pointB) / 2) in
  let midLatLng := toLatLng midpoint in
  let aLatLng := toLatLng pointA in
  let bLatLng := toLatLng pointB in
  let aPt := latLngToLayerPoint v aLatLng in
  let bPt := latLngToLayerPoint v bLatLng in
  let midPt := latLngToLayerPoint v midLatLng in
  let vx := px_x bPt - px_x aPt in
  let vy := px_y bPt - px_y aPt in
  let px := - vy in
  let py := vx in
  let plen := or_one (Math_sqrt (px * px + py * py)) in
  let px := px / plen in
  let py := py / plen in
  let size := getSize in
  let extend := Math_sqrt (px_x size * px_x size + px_y size * px_y size) * 1.5 in
  let p1Pixel := mkPoint (px_x midPt + px * extend) (px_y midPt + py * extend) in
  let p2Pixel := mkPoint (px_x midPt - px * extend) (px_y midPt - py * extend) in
  mkSplit midpoint aPt bPt midPt (px, py) extend p1Pixel p2Pixel.

(** Lines 138-170 of [splitMap] (inside the timer callback): the
    normal of the split line, turned towards A, and the far corners
    of the two half-plane polygons in pixel space. *)
Definition splitShading (g : split_geometry) : shading :=
  let bigPx := extend g * 3 in
  let dx := px_x (p2Pixel g) - px_x (p1Pixel g) in
  let dy := px_y (p2Pixel g) - px_y (p1Pixel g) in
  let nx := - dy in
  let ny := dx in
  let nlen := or_one (Math_sqrt (nx * nx + ny * ny)) in
  let nx := nx / nlen in
  let ny := ny / nlen in
  let toApx := px_x (aPt g) - px_x (p1Pixel g) in
  let toApy := px_y (aPt g) - px_y (p1Pixel g) in
  let d := nx * toApx + ny * toApy in
  let flip := negb (Qle_bool 0 d) in
  let nx := if flip then - nx else nx in
  let ny := if flip then - ny else ny in
  let p1 := p1Pixel g in
  let p2 := p2Pixel g in
  mkShading (nx, ny) bigPx
    (mkPoint (px_x p1 + nx * bigPx) (px_y p1 + ny * bigPx))
    (mkPoint (px_x p2 + nx * bigPx) (px_y p2 + ny * bigPx))
    (mkPoint (px_x p1 - nx * bigPx) (px_y p1 - ny * bigPx))
    (mkPoint (px_x p2 - nx * bigPx) (px_y p2 - ny * bigPx)).

(** The pixel-space rings of the two polygons, before they are
    converted to geographic coordinates. *)
Definition polygonA_pixels (g : split_geometry) : list Point :=
  let s := splitShading g in
  [p1Pixel g; p2Pixel g; p2_far s; p1_far s; p1Pixel g].

Definition polygonB_pixels (g : split_geometry) : list Point :=
  let s := splitShading g in
  [p1Pixel g; p2Pixel g; p2_far_b s; p1_far_b s; p1Pixel g].

(** [sideToShade === 'A' ? polyAGeo : polyBGeo], in pixel space. *)
Definition shaded_pixels (g : split_geometry) (sideToShade : jsstring) : list Point :=
  if decide (sideToShade = Some "A") then polygonA_pixels g else polygonB_pixels g.

Definition unproject (v : view) (p : Point) : coord :=
  toLngLat (layerPointToLatLng v p).

(** The layers of [splitMap]. *)
Definition midMarker (g : split_geometry) : layer :=
  L_circleMarker (toLatLng (midpoint g)) (Some "#f1c40f") "#d35400" None.

Definition splitLine (v : view) (g : split_geometry) (opts : options) : layer :=
  L_polyline [layerPointToLatLng v (p1Pixel g); layerPointToLatLng v (p2Pixel g)]
             (str_or (o_lineColor opts) "#2c3e50").

Definition leafletPoly (v : view) (g : split_geometry)
    (sideToShade : jsstring) (opts : options) : layer :=
  let colour :=
    str_or (o_color opts)
           (if decide (sideToShade = Some "A") then "#e74c3c" else "#2ecc71") in
  L_geoJSON (unproject v <$> shaded_pixels g sideToShade) colour.

(** [splitMap(pointA, pointB, sideToShade, opts)]; it has no [return]
    statement.  An omitted [sideToShade] is ['A']. *)
Definition splitMap (pointA pointB : coord) (sideToShade : option jsstring)
    (opts : options) : M unit :=
  let sideToShade := default (Some "A") sideToShade in
  let pointA := normalizeCoord pointA in
  let pointB := normalizeCoord pointB in
  v ← getView;
  let g := splitGeometry v pointA pointB in
  addLayer animationLayer (midMarker g) ;;
  addLayer animationLayer (splitLine v g opts) ;;
  let ma := L_circleMarker (toLatLng pointA) (Some "#e74c3c") "#c0392b" None in
  let mb := L_circleMarker (toLatLng pointB) (Some "#3498db") "#2980b9" None in
  addLayer animationLayer ma ;;
  addLayer animationLayer mb ;;
  setTimeout [E_addLayer animationLayer (leafletPoly v g sideToShade opts);
              E_removeLayer animationLayer (midMarker g)] 5000.

(** ** The other drawing primitives *)

(** [drawCircle(centreLngLat, radiusMeters, colorWhenFilled, opts)];
    an omitted [colorWhenFilled] is ['red']. *)
Definition drawCircle (centreLngLat : coord) (radiusMeters : num)
    (colorWhenFilled : option jsstring) (opts : options) : M string :=
  let colorWhenFilled := default (Some "red") colorWhenFilled in
  now ← Date_now;
  let id := str_or (o_id opts) ("circle-" +:+ pretty now) in
  let centre := toLatLng centreLngLat in
  let circleOutline :=
    L_circle centre radiusMeters (Some (str_or (o_outlineColor opts) "#f1c40f"))
             false None in
  addLayer animationLayer circleOutline ;;
  let fill := L_circle centre radiusMeters colorWhenFilled true (Some id) in
  setTimeout [E_removeLayer animationLayer circleOutline;
              E_addLayer animationLayer fill] 5000 ;;
  mret id.

(** [dropMarker(lnglat, color, opts)]; an omitted [color] is
    ['#ff0000'].  [Array.isArray(lnglat)] holds for a [coord], so the
    [return null] is not reached. *)
Definition dropMarker (lnglat : coord) (color : option jsstring)
    (opts : options) : M layer :=
  let color := default (Some "#ff0000") color in
  let coord := normalizeCoord lnglat in
  let latlng := toLatLng coord in
  let marker :=
    L_circleMarker latlng (Some (str_or color (str_or (o_fillColor opts) "#ff0000")))
                   (str_or (o_outlineColor opts) "#000")
                   (match o_id opts with
                    | Some EmptyString => None
                    | i => i
                    end) in
  addLayer animationLayer marker ;;
  mret marker.

(** The object [{id, center, zoom}] returned by [placeKeyframe]. *)
Record keyframe : Type := mkKeyframe {
  k_id : string;
  k_center : coord;
  k_zoom : num
}.

Definition placeKeyframe (opts : options) : M keyframe :=
  center ← getCenter;
  zoom ← getZoom;
  let centerCoords := (lng center, lat center) in
  now ← Date_now;
  let id := str_or (o_id opts) ("keyframe-" +:+ pretty now) in
  let marker :=
    L_circleMarker center (Some (str_or (o_color opts) "#2ecc71"))
                   (str_or (o_outlineColor opts) "#27ae60") (Some id) in
  addLayer keyframeLayer marker ;;
  mret (mkKeyframe id centerCoords zoom).

(** [drawPolygon(points, fillColor, opts)]; an omitted [fillColor] is
    ['#ff0000'].  Fewer than three points give [null]. *)
Definition drawPolygon (points : list coord) (fillColor : option jsstring)
    (opts : options) : M (option string) :=
  let fillColor := default (Some "#ff0000") fillColor in
  if decide (length points < 3)%nat then mret None
  else
    let latlngs := toLatLng <$> points in
    now ← Date_now;
    let id := str_or (o_id opts) ("polygon-" +:+ pretty now) in
    let colour := str_or (o_outlineColor opts) "#333" in
    let outline := L_polygon latlngs colour None false (Some id) in
    addLayer animationLayer outline ;;
    let filled := L_polygon latlngs colour fillColor true (Some id) in
    setTimeout [E_removeLayer animationLayer outline;
                E_addLayer animationLayer filled] 5000 ;;
    mret (Some id).

(** [interpolateAlong(line, distanceMeters)] *)
Definition interpolateAlong (line : list coord) (distanceMeters : num) : coord :=
  turf_along line (Num.div_by distanceMeters 1000).

Definition stepMs : Z := 40.

(** The inner function [step] of [drawRoute].  [fuel] bounds the
    number of times [step] runs; the promise is still pending when
    it is used up. *)
Fixpoint step (fuel : nat) (line : list coord) (drawn marker : layer)
    (totalMeters stepMeters traveled : num) : M unit :=
  match fuel with
  | O => never
  | S fuel' =>
      let traveled := Num.add traveled stepMeters in
      let traveled := if Num.gtb traveled totalMeters then totalMeters else traveled in
      let coord := interpolateAlong line traveled in
      emit (E_addLatLng drawn (toLatLng coord)) ;;
      emit (E_setLatLng marker (toLatLng coord)) ;;
      if Num.geb traveled totalMeters then mret tt
      else
        emit (E_nextFrame stepMs) ;;
        step fuel' line drawn marker totalMeters stepMeters traveled
  end.

(** [drawRoute(points, speedMetersPerSecond, opts)], as the promise it
    returns settles; an omitted speed is [120]. *)
Definition drawRoute (fuel : nat) (points : list coord)
    (speedMetersPerSecond : option jsnumber) (opts : options) : M unit :=
  let speedMetersPerSecond := Number (default (Some (Fin 120)) speedMetersPerSecond) in
  match points with
  | [] | [_] => throw (Error "Need at least 2 points")
  | p0 :: _ =>
      let line := points in
      let totalLengthKm := turf_length line in
      let totalMeters := Fin (totalLengthKm * 1000) in
      let colour := str_or (o_color opts) "#f1c40f" in
      let drawn := L_polyline [] colour in
      let marker := L_circleMarker (toLatLng p0) (Some colour) "#000" None in
      addLayer animationLayer drawn ;;
      addLayer animationLayer marker ;;
      let traveled := Fin 0 in
      let stepMeters := Num.mul speedMetersPerSecond (Fin (inject_Z stepMs / 1000)) in
      step fuel line drawn marker totalMeters stepMeters traveled
  end.

(** ** Registry, sidebar list and persistence *)

(** [localStorage.setItem]; it raises when the storage is full. *)
Definition setItem (key : string) (text : stored) : M unit :=
  w ← get;
  if w_storage_full w then throw (Error "QuotaExceededError")
  else modify (set_storage (<[key := text]> (w_storage w))).

Definition getItem (key : string) : M (option stored) :=
  w ← get; mret (w_storage w !! key).

Definition saveAnimationsToStorage : M unit :=
  try_catch
    (w ← get; setItem STORAGE_KEY (JSON_stringify (w_animations w)))
    (fun e => emit (E_warn "Could not save")).

Definition addAnimationEntry (anim : animation) : M unit :=
  let label := a_type anim +:+ " " +:+ a_id anim in
  modify (fun w => set_animList (w_animList w ++ [label]) w) ;;
  try_catch saveAnimationsToStorage (fun e => mret tt).

Definition refreshAnimList : M unit :=
  modify (set_animList []) ;;
  w ← get;
  for_each (w_animations w) addAnimationEntry ;;
  saveAnimationsToStorage.

(** [ui.animations.push(a)] *)
Definition push (a : animation) : M unit :=
  modify (fun w => set_animations (w_animations w ++ [a]) w).

(** [moveAnimationById(id, direction)]; [findIndex] gives the first
    entry with that id. *)
Definition moveAnimationById (id : string) (direction : Z) : M unit :=
  w ← get;
  let animations := w_animations w in
  match list_find (fun a => a_id a = id) animations with
  | None => mret tt
  | Some (idx, tmp) =>
      let newIdx := (Z.of_nat idx + direction)%Z in
      if decide (newIdx < 0 ∨ newIdx >= Z.of_nat (length animations))%Z then mret tt
      else
        match animations !! Z.to_nat newIdx with
        | None => mret tt
        | Some other =>
            modify (set_animations
                      (<[Z.to_nat newIdx := tmp]> (<[idx := other]> animations))) ;;
            refreshAnimList
        end
  end.

Definition loadAnimationsFromStorage : M unit :=
  try_catch
    (raw ← getItem STORAGE_KEY;
     match raw with
     | None | Some Text_empty => mret tt
     | Some Text_malformed => throw (Error "SyntaxError")
     | Some Text_not_array => mret tt
     | Some (Text_array arr) =>
         modify (set_animations arr) ;;
         refreshAnimList
     end)
    (fun e => emit (E_warn "Could not load animations")).

(** ** Point capture and the toolbar handlers *)

(** The promise of [capturePoints(promptText, options)] against the
    clicks that follow: [onMapClick] pushes a point and, unless
    [options.multiple], finishes; [stopCapturing] finishes; [cancel]
    rejects.  With no deciding click the promise stays pending.  The
    overlay's own display is not modelled. *)
Fixpoint capture (multiple : bool) (points : list coord)
    (events : list ui_event) : outcome (list coord) :=
  match events with
  | [] => Pending
  | Click_map l :: events' =>
      let lnglat := (lng l, lat l) in
      let points := points ++ [lnglat] in
      if multiple then capture multiple points events' else Ret points
  | Click_stop :: _ => Ret points
  | Click_cancel :: _ => Throw (Error "cancelled")
  end.

Definition capturePoints (multiple : bool) (events : list ui_event) : M (list coord) :=
  fun w => (capture multiple [] events, w).

(** [parseFloat(s || d)] on the answer of a [prompt]. *)
Definition parseFloat_or (s : jsstring) (d : Q) : num :=
  match s with
  | None | Some EmptyString => Fin d
  | Some t => parseFloat t
  end.

Definition new_id (prefix : string) : M string :=
  now ← Date_now; mret (prefix +:+ pretty now).

(** [try { body } catch (e) {}] *)
Definition try_ignore (body : M unit) : M unit :=
  try_catch body (fun e => mret tt).

Definition btnCircle (events : list ui_event) (radiusStr color : jsstring) : M unit :=
  try_ignore
    (pts ← capturePoints false events;
     match pts with
     | [] => mret tt
     | p0 :: _ =>
         id ← new_id "anim-";
         let a := mkAnimation id (P_circle p0 (Some (parseFloat_or radiusStr 500)) color) in
         push a ;;
         addAnimationEntry a
     end).

Definition btnSplit (events : list ui_event) (side : jsstring)
    (color : jsstring) : M unit :=
  try_ignore
    (pts ← capturePoints true events;
     match pts with
     | p0 :: p1 :: _ =>
         id ← new_id "anim-";
         let a := mkAnimation id (P_split p0 p1 side color) in
         push a ;;
         addAnimationEntry a
     | _ => mret tt
     end).

Definition btnRoute (events : list ui_event) (speed color : jsstring) : M unit :=
  try_ignore
    (pts ← capturePoints true events;
     match pts with
     | _ :: _ :: _ =>
         id ← new_id "anim-";
         let a := mkAnimation id (P_route pts (Some (parseFloat_or speed 120)) color) in
         push a ;;
         addAnimationEntry a
     | _ => mret tt
     end).

Definition btnKeyframe : M unit :=
  try_catch
    (k ← placeKeyframe no_opts;
     let a := mkAnimation (k_id k) (P_keyframe (k_center k) (Some (k_zoom k))) in
     push a ;;
     addAnimationEntry a)
    (fun e => emit (E_warn "Keyframe add cancelled")).

Definition btnPolygon (events : list ui_event) (color : jsstring) : M unit :=
  try_ignore
    (pts ← capturePoints true events;
     match pts with
     | _ :: _ :: _ :: _ =>
         id ← new_id "polygon-";
         let a := mkAnimation id (P_polygon pts color) in
         push a ;;
         addAnimationEntry a
     | _ => emit (E_alert "Need at least 3 points to make a polygon")
     end).

Definition btnDropMarker (events : list ui_event) (color : string) : M unit :=
  try_ignore
    (pts ← capturePoints false events;
     match pts with
     | [] => mret tt
     | p0 :: _ =>
         id ← new_id "marker-";
         dropMarker p0 (Some (Some color)) (opts_id id) ;;
         let a := mkAnimation id (P_marker p0 (Some color)) in
         push a ;;
         addAnimationEntry a
     end).

Definition btnClear (confirmed : bool) : M unit :=
  if negb confirmed then mret tt
  else
    modify (set_animations []) ;;
    modify (set_animList []) ;;
    clearLayers animationLayer ;;
    saveAnimationsToStorage.

(** The five toolbar buttons that capture points, with the answers
    the user gives to their prompts. *)
Inductive capture_button : Type :=
| Btn_circle (radiusStr color : jsstring)
| Btn_split (side color : jsstring)
| Btn_route (speed color : jsstring)
| Btn_polygon (color : jsstring)
| Btn_dropMarker (color : string).

Definition click (b : capture_button) (events : list ui_event) : M unit :=
  match b with
  | Btn_circle radiusStr color => btnCircle events radiusStr color
  | Btn_split side color => btnSplit events side color
  | Btn_route speed color => btnRoute events speed color
  | Btn_polygon color => btnPolygon events color
  | Btn_dropMarker color => btnDropMarker events color
  end.

(** [options.multiple] of the [capturePoints] call of each button. *)
Definition captures_multiple (b : capture_button) : bool :=
  match b with
  | Btn_circle _ _ | Btn_dropMarker _ => false
  | _ => true
  end.

(** ** Playback *)

Definition fitBounds (b : bounds) (o : move_options) : M unit :=
  emit (E_fitBounds b o) ;;
  modify (fun w => set_view (w_view w) (Some (getBoundsCenterZoom b)) w).

(** [map.removeLayer(keyframeLayer)] and [map.addLayer(keyframeLayer)],
    each behind its [map.hasLayer] test. *)
Definition hide_keyframes : M unit :=
  w ← get;
  when (w_keyframes_shown w)
       (emit (E_map_removeLayer keyframeLayer) ;; modify (set_keyframes_shown false)).

Definition show_keyframes : M unit :=
  w ← get;
  when (negb (w_keyframes_shown w))
       (emit (E_map_addLayer keyframeLayer) ;; modify (set_keyframes_shown true)).

(** [setMode(m)]; the visibility classes of toolbar and sidebar are
    not modelled. *)
Definition setMode (m : mode) : M unit :=
  modify (set_mode m) ;;
  match m with
  | viewer => hide_keyframes
  | editor => show_keyframes
  end.

(** [Math.round] *)
Definition Math_round (x : Q) : Q := inject_Z (Qfloor (x + (1 # 2))).

(** The bounds that [playAnimation] fits for a circle. *)
Definition circle_bounds (centre : coord) (radiusMeters : Q) : bounds :=
  let bufferMeters := Qmax 200 (Math_round (radiusMeters * 0.12)) in
  let extentKm := (radiusMeters + bufferMeters) / 1000 in
  let north := turf_destination centre extentKm 0 in
  let east := turf_destination centre extentKm 90 in
  let south := turf_destination centre extentKm 180 in
  let west := turf_destination centre extentKm 270 in
  let min4 a b c d := Qmin (Qmin (Qmin a b) c) d in
  let max4 a b c d := Qmax (Qmax (Qmax a b) c) d in
  let minLon := min4 (fst north) (fst east) (fst south) (fst west) in
  let maxLon := max4 (fst north) (fst east) (fst south) (fst west) in
  let minLat := min4 (snd north) (snd east) (snd south) (snd west) in
  let maxLat := max4 (snd north) (snd east) (snd south) (snd west) in
  latLngBounds [mkLatLng minLat minLon; mkLatLng maxLat maxLon].

(** [playAnimation(a)]; [fuel] is handed to [drawRoute]. *)
Definition playAnimation (fuel : nat) (a : animation) : M unit :=
  match a_params a with
  | P_circle centre radius color =>
      let centre := normalizeCoord centre in
      let radiusMeters := Num.or_else (Number radius) 500 in
      fitBounds (circle_bounds centre radiusMeters)
                (mkMove FLY_DURATION (Some (40, 40))) ;;
      await_moveend ;;
      drawCircle centre (Fin radiusMeters) (Some color) (opts_id (a_id a)) ;;
      sleep 6000
  | P_split pa pb side color =>
      let pa := normalizeCoord pa in
      let pb := normalizeCoord pb in
      let mid := ((fst pa + fst pb) / 2, (snd pa + snd pb) / 2) in
      flyTo (toLatLng mid) (Fin 15) (mkMove FLY_DURATION None) ;;
      await_moveend ;;
      splitMap pa pb (Some side) (opts_color color) ;;
      sleep 6000
  | P_route points speed color =>
      let latlngs := toLatLng <$> points in
      let bounds := latLngBounds latlngs in
      fitBounds (pad bounds 0.2) (mkMove FLY_DURATION None) ;;
      await_moveend ;;
      drawRoute fuel points (Some speed) (opts_color color)
  | P_polygon points color =>
      drawPolygon points (Some color) (opts_id (a_id a)) ;;
      sleep 6000
  | P_marker point color =>
      flyTo (toLatLng point) (Fin 16) (mkMove FLY_DURATION None) ;;
      await_moveend ;;
      dropMarker point (Some color) no_opts ;;
      sleep 500
  | P_keyframe c zoom =>
      z ← match zoom with
          | Some z => mret z
          | None => getZoom
          end;
      try_catch
        (flyTo (toLatLng c) z (mkMove FLY_DURATION None) ;; await_moveend)
        (fun e => emit (E_warn "Invalid keyframe center") ;; setZoom z) ;;
      sleep 800
  end.

(** The click handler of [btnPlayAll]. *)
Definition btnPlayAll (fuel : nat) : M unit :=
  clearLayers animationLayer ;;
  hide_keyframes ;;
  setMode viewer ;;
  w ← get;
  for_each (w_animations w) (fun a => playAnimation fuel a ;; sleep 500) ;;
  setMode editor ;;
  show_keyframes.

(** ** What the drawing primitives return *)

(** The values that the six primitives can return. *)
Inductive jsvalue : Type :=
| V_undefined
| V_null
| V_string (s : string)
| V_layer (l : layer)
| V_keyframe (k : keyframe)
| V_promise.

Inductive primitive_call : Type :=
| Call_drawCircle (centreLngLat : coord) (radiusMeters : num)
                  (colorWhenFilled : option jsstring) (opts : options)
| Call_splitMap (pointA pointB : coord) (sideToShade : option jsstring)
                (opts : options)
| Call_drawRoute (points : list coord) (speedMetersPerSecond : option jsnumber)
                 (opts : options)
| Call_dropMarker (lnglat : coord) (color : option jsstring) (opts : options)
| Call_drawPolygon (points : list coord) (fillColor : option jsstring)
                   (opts : options)
| Call_placeKeyframe (opts : options).

(** A call of a primitive with the value of the call expression.
    [drawRoute] hands back its promise at once, whatever becomes of
    it. *)
Definition call (fuel : nat) (c : primitive_call) : M jsvalue :=
  match c with
  | Call_drawCircle centre radius color opts =>
      id ← drawCircle centre radius color opts; mret (V_string id)
  | Call_splitMap a b side opts =>
      splitMap a b side opts ;; mret V_undefined
  | Call_drawRoute points speed opts =>
      fun w => (Ret V_promise, after (drawRoute fuel points speed opts) w)
  | Call_dropMarker lnglat color opts =>
      marker ← dropMarker lnglat color opts; mret (V_layer marker)
  | Call_drawPolygon points fillColor opts =>
      r ← drawPolygon points fillColor opts;
      mret (match r with Some id => V_string id | None => V_null end)
  | Call_placeKeyframe opts =>
      k ← placeKeyframe opts; mret (V_keyframe k)
  end.

(** The inputs that the primitives take without complaint. *)
Definition valid_call (c : primitive_call) : Prop :=
  match c with
  | Call_drawRoute points _ _ => (2 <= length points)%nat
  | Call_drawPolygon points _ _ => (3 <= length points)%nat
  | _ => True
  end.

Definition returns_identifier (fuel : nat) (c : primitive_call) (w : world) : Prop :=
  exists id : string, result (call fuel c) w = Ret (V_string id).

(** ** The shape of a playback *)

Definition is_transition (e : event) : bool :=
  match e with
  | E_fitBounds _ _ | E_flyTo _ _ _ => true
  | _ => false
  end.

(** Where a transition takes the map. *)
Definition target_of (e : event) : option view :=
  match e with
  | E_fitBounds b _ => Some (getBoundsCenterZoom b)
  | E_flyTo c zoom _ => Some (c, zoom)
  | _ => None
  end.

(** The events that a computation adds to the log. *)
Definition added {A} (m : M A) (w : world) : list event :=
  drop (length (w_log w)) (w_log (after m w)).

(** The world once a transition has been started and awaited. *)
Definition arrived (t : event) (w : world) : world :=
  let w' := set_log (fun l => l ++ [t; E_await_moveend]) w in
  match target_of t with
  | Some v => set_view v None w'
  | None => w'
  end.

(** The drawing primitive that matches the type of an entry, called
    as [playAnimation] calls it; a keyframe has none. *)
Definition matching_primitive (fuel : nat) (a : animation) : M unit :=
  match a_params a with
  | P_circle centre radius color =>
      drawCircle (normalizeCoord centre) (Fin (Num.or_else (Number radius) 500))
                 (Some color) (opts_id (a_id a)) ;; mret tt
  | P_split pa pb side color =>
      splitMap (normalizeCoord pa) (normalizeCoord pb) (Some side) (opts_color color)
  | P_route points speed color =>
      drawRoute fuel points (Some speed) (opts_color color)
  | P_polygon points color =>
      drawPolygon points (Some color) (opts_id (a_id a)) ;; mret tt
  | P_marker point color =>
      dropMarker point (Some color) no_opts ;; mret tt
  | P_keyframe _ _ => mret tt
  end.

(** An entry played as the playback engine is described: a
    transition, the wait for its end, the matching primitive, a
    settle time. *)
Definition plays_as_described (fuel : nat) (a : animation) (w : world) : Prop :=
  exists (t : event) (settle : Z),
    is_transition t = true /\
    added (playAnimation fuel a) w =
    [t; E_await_moveend] ++ added (matching_primitive fuel a) (arrived t w)
      ++ [E_sleep settle].

(** The log of a registry played entry after entry, each followed by
    half a second; it stops at an entry that does not complete. *)
Fixpoint playback (fuel : nat) (l : list animation) (w : world) : list event :=
  match l with
  | [] => []
  | a :: l' =>
      let m := playAnimation fuel a ;; sleep 500 in
      added m w ++
      match result m w with
      | Ret _ => playback fuel l' (after m w)
      | _ => []
      end
  end.

(** The registry that [moveAnimationById] leaves, as a function of
    the registry it finds. *)
Definition moved (id : string) (direction : Z) (l : list animation) : list animation :=
  match list_find (fun a => a_id a = id) l with
  | None => l
  | Some (idx, tmp) =>
      let newIdx := (Z.of_nat idx + direction)%Z in
      if decide (newIdx < 0 ∨ newIdx >= Z.of_nat (length l))%Z then l
      else match l !! Z.to_nat newIdx with
           | None => l
           | Some other => <[Z.to_nat newIdx := tmp]> (<[idx := other]> l)
           end
  end.

(** The transition that [playAnimation] starts for an entry, if any. *)
Definition transition_of (a : animation) (w : world) : option event :=
  match a_params a with
  | P_circle centre radius _ =>
      Some (E_fitBounds (circle_bounds (normalizeCoord centre)
                                       (Num.or_else (Number radius) 500))
                        (mkMove FLY_DURATION (Some (40, 40))))
  | P_split pa pb _ _ =>
      let pa := normalizeCoord pa in
      let pb := normalizeCoord pb in
      Some (E_flyTo (toLatLng ((fst pa + fst pb) / 2, (snd pa + snd pb) / 2)) (Fin 15)
                    (mkMove FLY_DURATION None))
  | P_route points _ _ =>
      Some (E_fitBounds (pad (latLngBounds (toLatLng <$> points)) 0.2)
                        (mkMove FLY_DURATION None))
  | P_polygon _ _ => None
  | P_marker point _ =>
      Some (E_flyTo (toLatLng point) (Fin 16) (mkMove FLY_DURATION None))
  | P_keyframe c zoom =>
      Some (E_flyTo (toLatLng c) (default (snd (w_view w)) zoom)
                    (mkMove FLY_DURATION None))
  end.

(** The settle time at the end of [playAnimation], if any. *)
Definition settle_of (a : animation) : option Z :=
  match a_params a with
  | P_circle _ _ _ | P_split _ _ _ _ | P_polygon _ _ => Some 6000%Z
  | P_route _ _ _ => None
  | P_marker _ _ => Some 500%Z
  | P_keyframe _ _ => Some 800%Z
  end.

Definition settle_log (a : animation) : list event :=
  match settle_of a with
  | Some ms => [E_sleep ms]
  | None => []
  end.

(** One entry of the loop of [btnPlayAll]. *)
Definition play_and_wait (fuel : nat) (a : animation) : M unit :=
  playAnimation fuel a ;; sleep 500.

(** What [btnPlayAll] does before it plays the first entry. *)
Definition prologue : M unit :=
  clearLayers animationLayer ;; hide_keyframes ;; setMode viewer.

End Script.

(** * The rest of the script *)

(** ** Sidebar rows, mode toggle, import and export *)

Section Sidebar.
Context `{!Leaflet, !Turf, !JSMath}.

(** The text of a sidebar row, [`${anim.type} ${anim.id}`]. *)
Definition entry_label (anim : animation) : string :=
  a_type anim +:+ " " +:+ a_id anim.

(** The click handler of [modeToggle]. *)
Definition modeToggle_click : M unit :=
  w ← get;
  setMode (match w_mode w with
           | editor => viewer
           | viewer => editor
           end).

(** [l._animId] *)
Definition layer_animId (l : layer) : jsstring :=
  match l with
  | L_circle _ _ _ _ i => i
  | L_circleMarker _ _ _ i => i
  | L_polyline _ _ => None
  | L_polygon _ _ _ _ i => i
  | L_geoJSON _ _ => None
  end.

(** [group.eachLayer(l => { if (l._animId === id) group.removeLayer(l); })]
    on the layers that the group holds. *)
Definition remove_tagged (g : group) (id : string) (held : list layer) : M unit :=
  for_each held
    (fun l => when (bool_decide (layer_animId l = Some id)) (removeLayer g l)).

(** The click handler of the Delete button of the row made for [anim];
    [li] is the position of that row in the sidebar list, and the
    layers that the two groups hold at the click are given. *)
Definition delBtn_click (anim : animation) (li : nat)
    (inAnimationLayer inKeyframeLayer : list layer) : M unit :=
  modify (fun w =>
    set_animations (filter (fun a => a_id a ≠ a_id anim) (w_animations w)) w) ;;
  remove_tagged animationLayer (a_id anim) inAnimationLayer ;;
  remove_tagged keyframeLayer (a_id anim) inKeyframeLayer ;;
  modify (fun w => set_animList (delete li (w_animList w)) w) ;;
  try_ignore saveAnimationsToStorage.

(** The click handler of the Play button of the row made for [anim]:
    it plays the entry that has the id now, or [anim] when none has. *)
Definition playBtn_click (fuel : nat) (anim : animation) : M unit :=
  w ← get;
  match list_find (fun a => a_id a = a_id anim) (w_animations w) with
  | Some (_, current) => playAnimation fuel current
  | None => playAnimation fuel anim
  end.


(** The change handler of [fileInput]; [file] is the text of the first
    chosen file, if one was chosen.  [JSON.parse] raises on a text
    that is empty or malformed (its message, the host's, is written
    [SyntaxError]). *)
Definition fileInput_change (file : option stored) : M unit :=
  match file with
  | None => mret tt
  | Some text =>
      try_catch
        (match text with
         | Text_empty | Text_malformed => throw (Error "SyntaxError")
         | Text_not_array => throw (Error "Invalid file")
         | Text_array parsed =>
             modify (set_animations parsed) ;;
             refreshAnimList ;;
             emit (E_alert ("Imported " +:+ pretty (length parsed) +:+ " animations"))
         end)
        (fun e => match e with
                  | Error msg => emit (E_alert ("Import failed: " +:+ msg))
                  end)
  end.

(** What the user can do with toolbar and sidebar, the Delete button
    apart. *)
Inductive action : Type :=
| Act_click (b : capture_button) (events : list ui_event)
| Act_keyframe
| Act_clear (confirmed : bool)
| Act_move (id : string) (direction : Z)
| Act_load
| Act_import (file : option stored)
| Act_toggle
| Act_playAll (fuel : nat)
| Act_play (fuel : nat) (anim : animation).

Definition perform (a : action) : M unit :=
  match a with
  | Act_click b events => click b events
  | Act_keyframe => btnKeyframe
  | Act_clear confirmed => btnClear confirmed
  | Act_move id direction => moveAnimationById id direction
  | Act_load => loadAnimationsFromStorage
  | Act_import file => fileInput_change file
  | Act_toggle => modeToggle_click
  | Act_playAll fuel => btnPlayAll fuel
  | Act_play fuel anim => playBtn_click fuel anim
  end.

(** The sidebar shows the registry, row for entry. *)
Definition in_sync (w : world) : Prop :=
  w_animList w = entry_label <$> w_animations w.

(** The stored text is the registry. *)
Definition persisted (w : world) : Prop :=
  w_storage w !! STORAGE_KEY = Some (JSON_stringify (w_animations w)).

(** The world that [saveAnimationsToStorage] leaves. *)
Definition saved (w : world) : world :=
  if w_storage_full w then set_log (fun l => l ++ [E_warn "Could not save"]) w
  else set_storage (<[STORAGE_KEY := JSON_stringify (w_animations w)]> (w_storage w)) w.

(** The entry that a capturing button makes of the captured points
    at a given time, if they are enough. *)
Definition entry_of (b : capture_button) (pts : list coord) (now : N) : option animation :=
  match b, pts with
  | Btn_circle radiusStr color, p0 :: _ =>
      Some (mkAnimation ("anim-" +:+ pretty now)
                        (P_circle p0 (Some (parseFloat_or radiusStr 500)) color))
  | Btn_split side color, p0 :: p1 :: _ =>
      Some (mkAnimation ("anim-" +:+ pretty now) (P_split p0 p1 side color))
  | Btn_route speed color, _ :: _ :: _ =>
      Some (mkAnimation ("anim-" +:+ pretty now)
                        (P_route pts (Some (parseFloat_or speed 120)) color))
  | Btn_polygon color, _ :: _ :: _ :: _ =>
      Some (mkAnimation ("polygon-" +:+ pretty now) (P_polygon pts color))
  | Btn_dropMarker color, p0 :: _ =>
      Some (mkAnimation ("marker-" +:+ pretty now) (P_marker p0 (Some color)))
  | _, _ => None
  end.

(** From [w] to [w'] the registry and the sidebar have grown by the
    entries [new], in step, and nothing else of the world has changed
    but the log and the stored text, which is the new registry when
    [new] is not empty and the storage takes it. *)
Definition grown (new : list animation) (w w' : world) : Prop :=
  w_animations w' = w_animations w ++ new /\
  w_animList w' = w_animList w ++ (entry_label <$> new) /\
  w_storage_full w' = w_storage_full w /\
  w_mode w' = w_mode w /\
  w_keyframes_shown w' = w_keyframes_shown w /\
  w_view w' = w_view w /\
  (new = [] -> w_storage w' = w_storage w) /\
  (w_storage_full w = true -> w_storage w' = w_storage w) /\
  (new <> [] -> w_storage_full w = false -> persisted w').

(** The number of points below which a capturing button adds
    nothing. *)
Definition needed (b : capture_button) : nat :=
  match b with
  | Btn_circle _ _ | Btn_dropMarker _ => 1
  | Btn_split _ _ | Btn_route _ _ => 2
  | Btn_polygon _ => 3
  end.

(** What the editor keeps: registry, sidebar, stored texts and whether
    the storage is full. *)
Definition kept (w : world)
    : list animation * list string * gmap string stored * bool :=
  (w_animations w, w_animList w, w_storage w, w_storage_full w).

(** From [w] to [w'] the registry has become [l] and the sidebar has
    been rebuilt from it; the stored text is [l] when the storage
    takes it. *)
Definition rebuilt (l : list animation) (w w' : world) : Prop :=
  w_animations w' = l /\
  in_sync w' /\
  w_storage_full w' = w_storage_full w /\
  w_mode w' = w_mode w /\
  w_keyframes_shown w' = w_keyframes_shown w /\
  w_view w' = w_view w /\
  (w_storage_full w = false -> persisted w') /\
  (w_storage_full w = true -> w_storage w' = w_storage w).

(** What an action can have done to the editor's state: nothing, added
    entries at the end, or replaced the registry and rebuilt the
    sidebar. *)
Definition settled (w w' : world) : Prop :=
  kept w' = kept w \/
  (exists new : list animation, (length new <= 1)%nat /\ grown new w w') \/
  (exists l : list animation, rebuilt l w w').

(** The actions that play entries. *)
Definition plays (a : action) : bool :=
  match a with
  | Act_playAll _ | Act_play _ _ => true
  | _ => false
  end.

End Sidebar.

(** ** The points that [drawRoute] draws *)

Section Travel.
Context `{!Leaflet, !Turf, !JSMath}.

(** An update of the drawn line or of the moving marker puts it at a
    distance of at most [T] metres along [line]. *)
Definition drawn_within (line : list coord) (T : Q) (e : event) : Prop :=
  match e with
  | E_addLatLng _ c | E_setLatLng _ c =>
      exists t : Q, t <= T /\ c = toLatLng (interpolateAlong line (Fin t))
  | _ => True
  end.

(** The last two events are the updates of line and marker to the
    distance [T] along [line]. *)
Definition ends_at (line : list coord) (T : Q) (es : list event) : Prop :=
  exists (pre : list event) (drawn marker : layer) (t : Q),
    t == T /\
    es = pre ++ [E_addLatLng drawn (toLatLng (interpolateAlong line (Fin t)));
                 E_setLatLng marker (toLatLng (interpolateAlong line (Fin t)))].

End Travel.

(** ** Geocoding *)

(** One result of the search service. *)
Record place : Type := mkPlace { p_lon : string; p_lat : string }.

(** The answers of the search service: the JSON of the [n]-th request,
    for the query it carries, an array of places or [null] ([None]).
    A request that fails, or a body that is no JSON, is a [Throw]; a
    request without answer is [Pending].  Answers of another shape
    are not modelled. *)
Definition service : Type := nat -> string -> outcome (option (list place)).

(** The argument of [geocodeTry]: one query or several. *)
Inductive queries : Type :=
| One (q : string)
| Many (qs : list string).

Section Geocoding.
Context `{!JSMath}.

(** [geocode(q)], sent as request [n]. *)
Definition geocode (net : service) (n : nat) (q : string) : outcome (num * num) :=
  match net n q with
  | Ret (Some (p :: _)) => Ret (parseFloat (p_lon p), parseFloat (p_lat p))
  | Ret _ => Throw (Error ("No results for " +:+ q))
  | Throw e => Throw e
  | Pending => Pending
  end.

(** The loop of [geocodeTry], its requests numbered from [n]. *)
Fixpoint geocodeTry_loop (net : service) (n : nat) (qs : list string)
    : outcome (option (num * num)) :=
  match qs with
  | [] => Ret None
  | q :: qs' =>
      match geocode net n q with
      | Ret r => Ret (Some r)
      | Throw _ => geocodeTry_loop net (S n) qs'
      | Pending => Pending
      end
  end.

Definition geocodeTry (net : service) (n : nat) (arg : queries)
    : outcome (option (num * num)) :=
  let qs := match arg with
            | One q => [q]
            | Many qs => qs
            end in
  geocodeTry_loop net n qs.

End Geocoding.

(** ** The fallback for [turf.bearing] *)

(** The trigonometry of JavaScript, of which only the range of
    [Math.atan2] is relied upon. *)
Class JSTrig : Type := {
  Math_PI : Q;
  Math_sin : Q -> Q;
  Math_cos : Q -> Q;
  Math_atan2 : Q -> Q -> Q;
  Math_PI_pos : 0 < Math_PI;
  Math_atan2_range : forall y x, - Math_PI <= Math_atan2 y x <= Math_PI
}.

(** [x % m]: the remainder has the sign of [x]. *)
Definition js_rem (x m : Q) : Q :=
  let q := x / m in
  let t := if Qle_bool 0 q then Qfloor q else Qceiling q in
  x - m * inject_Z t.

Section Bearing.
Context `{!JSTrig}.

(** The function installed as [turf.bearing] when the library has
    none, on the coordinates of its two point features. *)
Definition bearing (p1 p2 : coord) : Q :=
  let lon1 := fst p1 * Math_PI / 180 in
  let lat1 := snd p1 * Math_PI / 180 in
  let lon2 := fst p2 * Math_PI / 180 in
  let lat2 := snd p2 * Math_PI / 180 in
  let y := Math_sin (lon2 - lon1) * Math_cos lat2 in
  let x := Math_cos lat1 * Math_sin lat2
           - Math_sin lat1 * Math_cos lat2 * Math_cos (lon2 - lon1) in
  let brng := Math_atan2 y x * 180 / Math_PI in
  js_rem (brng + 360) 360.

End Bearing.

(** ** A concrete host

    An equirectangular projection at 100 pixels per degree on an
    800 x 600 map, an integer square root, flat-earth geodesy and a
    [parseFloat] that reads unsigned decimal integers.  It serves to
    run the script on concrete inputs. *)

Module Demo.

#[export] Instance leaflet : Leaflet := {|
  latLngToLayerPoint _ l := mkPoint (lng l * 100) (- lat l * 100);
  layerPointToLatLng _ p := mkLatLng (- px_y p / 100) (px_x p / 100);
  getSize := mkPoint 800 600;
  getBoundsCenterZoom b :=
    match b with
    | latLngBounds (l :: _) => (l, Fin 13)
    | _ => (mkLatLng 0 0, Fin 13)
    end
|}.

Definition flat_length (pts : list coord) : Q :=
  match pts with
  | a :: b :: _ => Qabs (fst b - fst a) + Qabs (snd b - snd a)
  | _ => 0
  end.

#[export] Instance turf : Turf := {|
  turf_destination c km bearing := (fst c + km, snd c + km);
  turf_length := flat_length;
  turf_along pts km := List.hd (0, 0) pts
|}.

Definition isqrt (x : Q) : Q := inject_Z (Z.sqrt (Qfloor x)).

Lemma isqrt_nonneg x : 0 <= isqrt x.
Proof.
  unfold isqrt. change 0 with (inject_Z 0). rewrite <- Zle_Qle.
  apply Z.sqrt_nonneg.
Qed.

Definition digit (c : Ascii.ascii) : option Z :=
  let n := Z.of_nat (Ascii.nat_of_ascii c) in
  if decide (48 <= n <= 57)%Z then Some (n - 48)%Z else None.

Fixpoint digits (acc : Z) (s : string) : option Z :=
  match s with
  | EmptyString => Some acc
  | String c s' =>
      match digit c with
      | Some d => digits (acc * 10 + d) s'
      | None => None
      end
  end.

Definition parse (s : string) : num :=
  match s with
  | EmptyString => NaN
  | _ => match digits 0 s with
         | Some z => Fin (inject_Z z)
         | None => NaN
         end
  end.

#[export] Instance jsmath : JSMath := {|
  Math_sqrt := isqrt;
  Math_sqrt_nonneg := isqrt_nonneg;
  parseFloat := parse
|}.

(** The map as the script sets it up: centred on the Gold Coast at
    zoom 13, in editor mode, nothing stored. *)
Definition w0 : world :=
  mkWorld (mkLatLng (-27.9671) 153.4, Fin 13) None true editor
          [] [] ∅ false 1700000000000%N [].

Definition southport : coord := (153.4135598, -27.967894).
Definition mainBeach : coord := (153.4234825, -27.982048).
Definition busStop : coord := (153.4290483, -27.9825541).

Definition a_circle : animation :=
  mkAnimation "anim-1" (P_circle southport (Some (Fin 500)) (Some "gold")).
Definition a_split : animation :=
  mkAnimation "anim-2" (P_split southport mainBeach (Some "A") None).
Definition a_polygon : animation :=
  mkAnimation "polygon-3" (P_polygon [southport; mainBeach; busStop] (Some "purple")).
Definition a_nan : animation :=
  mkAnimation "anim-4" (P_circle southport (Some NaN) (Some "gold")).

(** The same map with three entries in the registry. *)
Definition w3 : world :=
  mkWorld (mkLatLng (-27.9671) 153.4, Fin 13) None true editor
          [a_circle; a_split; a_polygon] [] ∅ false 1700000000000%N [].

End Demo.

(** ** An editing session

    Worlds of the concrete host in which the sidebar shows the
    registry, further entries and clicks, a coarse trigonometry (small
    angles, quadrants) and a search service that knows one place. *)

Module Session.
Import Demo.

Definition registry : list animation := [a_circle; a_split; a_polygon].

(** The editor after the three entries have been added. *)
Definition w_sync : world :=
  mkWorld (mkLatLng (-27.9671) 153.4, Fin 13) None true editor
          registry (entry_label <$> registry)
          {[STORAGE_KEY := JSON_stringify registry]} false 1700000000000%N [].

(** The same editor with a storage that takes nothing. *)
Definition w_full : world :=
  mkWorld (mkLatLng (-27.9671) 153.4, Fin 13) None true editor
          registry (entry_label <$> registry) ∅ true 1700000000000%N [].

Definition a_short : animation :=
  mkAnimation "anim-5" (P_route [southport] (Some (Fin 120)) (Some "yellow")).
Definition a_marker : animation :=
  mkAnimation "marker-6" (P_marker busStop (Some "#ff0000")).
Definition a_split_edited : animation :=
  mkAnimation "anim-2" (P_split southport busStop (Some "B") None).

Definition at_southport : LatLng := mkLatLng (-27.967894) 153.4135598.
Definition at_mainBeach : LatLng := mkLatLng (-27.982048) 153.4234825.
Definition at_busStop : LatLng := mkLatLng (-27.9825541) 153.4290483.

Definition pi : Q := 355 # 113.

Definition atan2 (y x : Q) : Q :=
  if Qle_bool x 0 then
    if Qle_bool 0 x then
      (if Qle_bool y 0 then (if Qle_bool 0 y then 0 else - pi / 2) else pi / 2)
    else (if Qle_bool 0 y then pi else - pi)
  else 0.

Lemma pi_pos : 0 < pi.
Proof. reflexivity. Qed.

Lemma atan2_range (y x : Q) : - pi <= atan2 y x <= pi.
Proof.
  unfold atan2.
  destruct (Qle_bool x 0), (Qle_bool 0 x), (Qle_bool y 0), (Qle_bool 0 y);
    split; vm_compute; discriminate.
Qed.

#[export] Instance trig : JSTrig := {|
  Math_PI := pi;
  Math_sin x := x;
  Math_cos _ := 1;
  Math_atan2 := atan2;
  Math_PI_pos := pi_pos;
  Math_atan2_range := atan2_range
|}.

(** A search service that finds Southport, has no result for other
    names and fails on the empty query. *)
Definition nominatim : service := fun _ q =>
  if String.eqb q "Southport" then Ret (Some [mkPlace "153" "27"])
  else if String.eqb q "" then Throw (Error "Failed to fetch")
  else Ret (Some []).

End Session.

(** * Properties *)

(** Running straight-line code of the script: unfold the monad and the
    host calls, then bring the log to the form [old ++ new]. *)
Ltac run_script :=
  cbv [mbind mret M_bind M_ret bind ret throw never try_catch get modify when
       emit addLayer removeLayer clearLayers setTimeout sleep await_moveend
       flyTo setZoom Date_now getCenter getZoom getView push
       set_log set_view set_keyframes_shown set_mode set_animations
       set_animList set_storage result after];
  cbn [w_view w_target w_keyframes_shown w_mode w_animations w_animList
       w_storage w_storage_full w_now w_log fst snd];
  rewrite <- ?app_assoc; cbn [app].

(** ** Coordinate normalisation *)

Lemma looks_swapped_true (x y : Q) :
  looks_swapped x y = true <-> Qabs x <= 90 /\ 90 < Qabs y.
Proof.
  unfold looks_swapped. rewrite andb_true_iff, negb_true_iff.
  rewrite Qle_bool_iff. split.
  - intros [Hx Hy]. split; [exact Hx |].
    apply Qnot_le_lt. intros Hle. apply Qle_bool_iff in Hle. congruence.
  - intros [Hx Hy]. split; [exact Hx |].
    destruct (Qle_bool (Qabs y) 90) eqn:E; [| reflexivity].
    apply Qle_bool_iff in E. exfalso. apply (Qlt_not_le _ _ Hy E).
Qed.

Lemma looks_swapped_false (x y : Q) :
  looks_swapped x y = false <-> ~ (Qabs x <= 90 /\ 90 < Qabs y).
Proof.
  rewrite <- looks_swapped_true. destruct (looks_swapped x y); split; intros; congruence.
Qed.

Lemma normalizeCoord_idempotent (pt : coord) :
  normalizeCoord (normalizeCoord pt) = normalizeCoord pt.
Proof.
  destruct pt as [x y].
  destruct (looks_swapped x y) eqn:E; unfold normalizeCoord; simpl; rewrite E; simpl.
  - assert (E' : looks_swapped y x = false).
    { apply looks_swapped_false. intros [Hy' _].
      apply looks_swapped_true in E. destruct E as [_ Hy].
      apply (Qlt_not_le _ _ Hy Hy'). }
    rewrite E'. reflexivity.
  - rewrite E. reflexivity.
Qed.

Lemma normalizeCoord_valid_lat (pt : coord) :
  Qabs (snd pt) <= 90 -> normalizeCoord pt = pt.
Proof.
  intros H. destruct pt as [x y]. unfold normalizeCoord. simpl in *.
  destruct (looks_swapped x y) eqn:E; [| reflexivity].
  apply looks_swapped_true in E. destruct E as [_ E].
  exfalso. apply (Qlt_not_le _ _ E H).
Qed.

(** C9.  [normalizeCoord] swaps a pair [(x, y)] exactly when
    [|x| <= 90] and [|y| > 90] and otherwise returns it unchanged;
    applying it twice is the same as applying it once; a pair with both
    absolute values at most 90 is never swapped. *)
Theorem normalizeCoord_spec (x y : Q) :
  (Qabs x <= 90 /\ 90 < Qabs y -> normalizeCoord (x, y) = (y, x)) /\
  (~ (Qabs x <= 90 /\ 90 < Qabs y) -> normalizeCoord (x, y) = (x, y)) /\
  normalizeCoord (normalizeCoord (x, y)) = normalizeCoord (x, y) /\
  (Qabs x <= 90 -> Qabs y <= 90 -> normalizeCoord (x, y) = (x, y)).
Proof.
  repeat split.
  - intros H. apply looks_swapped_true in H.
    unfold normalizeCoord. simpl. rewrite H. reflexivity.
  - intros H. apply looks_swapped_false in H.
    unfold normalizeCoord. simpl. rewrite H. reflexivity.
  - apply normalizeCoord_idempotent.
  - intros _ Hy. apply (normalizeCoord_valid_lat (x, y)). exact Hy.
Qed.

(** ** The half-plane split *)


Section Split.
Context `{!Leaflet, !Turf, !JSMath}.









End Split.

(** ** What a computation respects *)

Section Respects.
Context (R : relation world) `{!PreOrder R}.

Lemma respects_ret {A} (a : A) : respects R (mret a).
Proof. intros w. reflexivity. Qed.

Lemma respects_throw {A} (e : error) : respects R (@throw A e).
Proof. intros w. reflexivity. Qed.

Lemma respects_never {A} : respects R (@never A).
Proof. intros w. reflexivity. Qed.

Lemma respects_get : respects R get.
Proof. intros w. reflexivity. Qed.

Lemma respects_modify (g : world -> world) :
  (forall w, R w (g w)) -> respects R (modify g).
Proof. intros H w. apply H. Qed.

Lemma respects_bind {A C} (m : M A) (k : A -> M C) :
  respects R m -> (forall a, respects R (k a)) -> respects R (m ≫= k).
Proof.
  intros Hm Hk w. specialize (Hm w). unfold after in *.
  cbv [mbind M_bind bind]. destruct (m w) as [[a | e |] w1]; cbn [snd] in *.
  - etransitivity; [exact Hm | apply (Hk a w1)].
  - exact Hm.
  - exact Hm.
Qed.

Lemma respects_try_catch {A} (m : M A) (h : error -> M A) :
  respects R m -> (forall e, respects R (h e)) -> respects R (try_catch m h).
Proof.
  intros Hm Hh w. specialize (Hm w). unfold after, try_catch in *.
  destruct (m w) as [[a | e |] w1]; cbn [snd] in *.
  - exact Hm.
  - etransitivity; [exact Hm | apply (Hh e w1)].
  - exact Hm.
Qed.

Lemma respects_for_each {A} (l : list A) (body : A -> M unit) :
  (forall a, respects R (body a)) -> respects R (for_each l body).
Proof.
  intros Hb. induction l as [| a l IH]; cbn [for_each].
  - apply respects_ret.
  - apply respects_bind; [apply Hb | intros _; exact IH].
Qed.

Lemma respects_when (b : bool) (m : M unit) :
  respects R m -> respects R (when b m).
Proof. intros H. destruct b; [exact H | apply respects_ret]. Qed.

End Respects.

#[export] Instance same_preorder {B} (f : world -> B) : PreOrder (same f).
Proof. split; [intros w; reflexivity | intros w1 w2 w3 H12 H23; unfold same in *; congruence]. Qed.

#[export] Instance log_grows_preorder : PreOrder log_grows.
Proof.
  split; [intros w; unfold log_grows; reflexivity |].
  intros w1 w2 w3 H12 H23. unfold log_grows in *. etransitivity; eassumption.
Qed.

#[export] Instance log_grows_cosmetic : Cosmetic log_grows.
Proof.
  split.
  - intros [? ? ? ? ? ? ? ? ? lg] e. exists [e]. reflexivity.
  - intros [? ? ? ? ? ? ? ? ? lg] v t. unfold log_grows. reflexivity.
Qed.

#[export] Instance same_animations_cosmetic : Cosmetic (same w_animations).
Proof. split; intros []; reflexivity. Qed.

#[export] Instance same_keyframes_shown_cosmetic : Cosmetic (same w_keyframes_shown).
Proof. split; intros []; reflexivity. Qed.

(** Leaf facts go to the hint database [frame]; the tactic [frame]
    tries them before it descends into the structure of a
    computation. *)
Create HintDb frame.

Ltac frame_leaf :=
  first [ intros []; reflexivity
        | intros []; unfold log_grows; cbn; reflexivity
        | intros; apply cosmetic_view
        | intros; apply cosmetic_log ].

Ltac frame :=
  repeat first
    [ solve [ eauto 3 with frame typeclass_instances nocore ]
    | apply respects_ret; solve [ typeclasses eauto ]
    | apply respects_throw; solve [ typeclasses eauto ]
    | apply respects_never; solve [ typeclasses eauto ]
    | apply respects_get; solve [ typeclasses eauto ]
    | apply respects_modify; solve [ frame_leaf ]
    | apply respects_when; [ solve [ typeclasses eauto ] |]
    | apply respects_for_each; [ solve [ typeclasses eauto ] | intros ? ]
    | apply respects_try_catch; [ solve [ typeclasses eauto ] | | intros ? ]
    | apply respects_bind; [ solve [ typeclasses eauto ] | | intros ? ] ].

Lemma emit_respects (R : relation world) `{!Cosmetic R} (e : event) :
  respects R (emit e).
Proof. intros w. apply cosmetic_log. Qed.

#[export] Hint Resolve emit_respects : frame.

(** ** The registry *)

Section Registry.
Context `{!Leaflet, !Turf, !JSMath}.

Lemma setItem_preserves_animations key text :
  preserves w_animations (setItem key text).
Proof.
  intros w. unfold after, setItem. cbv [mbind M_bind bind get].
  destruct (w_storage_full w); reflexivity.
Qed.

Hint Resolve setItem_preserves_animations : frame.

Lemma saveAnimationsToStorage_preserves_animations :
  preserves w_animations saveAnimationsToStorage.
Proof. unfold saveAnimationsToStorage. frame. Qed.

Hint Resolve saveAnimationsToStorage_preserves_animations : frame.

Lemma addAnimationEntry_preserves_animations a :
  preserves w_animations (addAnimationEntry a).
Proof. unfold addAnimationEntry. frame. Qed.

Hint Resolve addAnimationEntry_preserves_animations : frame.

Lemma refreshAnimList_preserves_animations :
  preserves w_animations refreshAnimList.
Proof. unfold refreshAnimList. frame. Qed.

(** *** Reordering *)

Lemma delete_insert_same {A} (l : list A) (i : nat) (x : A) :
  delete i (<[i:=x]> l) = delete i l.
Proof.
  rewrite !delete_take_drop.
  rewrite take_insert_ge by lia. rewrite drop_insert_lt by lia. reflexivity.
Qed.

(** Exchanging the entries at two positions permutes the list. *)
Lemma swap_Permutation {A} (l : list A) (i j : nat) (a b : A) :
  l !! i = Some a -> l !! j = Some b ->
  <[j:=a]> (<[i:=b]> l) ≡ₚ l.
Proof.
  intros Hi Hj. destruct (decide (i = j)) as [-> | Hne].
  - rewrite list_insert_insert_eq. rewrite list_insert_id; [reflexivity | exact Hi].
  - set (l1 := <[i:=b]> l).
    assert (Hi1 : l1 !! i = Some b).
    { apply list_lookup_insert_eq. eapply lookup_lt_Some, Hi. }
    assert (Hj1 : l1 !! j = Some b).
    { unfold l1. rewrite list_lookup_insert_ne by exact Hne. exact Hj. }
    assert (Hj2 : <[j:=a]> l1 !! j = Some a).
    { apply list_lookup_insert_eq. eapply lookup_lt_Some, Hj1. }
    rewrite (delete_Permutation _ _ _ Hj2), delete_insert_same.
    rewrite (delete_Permutation l _ _ Hi).
    apply Permutation_skip.
    apply (Permutation_cons_inv (a := b)).
    rewrite <- (delete_Permutation _ _ _ Hj1).
    rewrite (delete_Permutation _ _ _ Hi1).
    unfold l1. rewrite delete_insert_same. reflexivity.
Qed.

Lemma moveAnimationById_moved (id : string) (direction : Z) (w : world) :
  w_animations (after (moveAnimationById id direction) w) =
  moved id direction (w_animations w).
Proof.
  unfold moved, after, moveAnimationById. cbv [mbind M_bind bind get].
  destruct (list_find _ (w_animations w)) as [[idx tmp] |]; [| reflexivity].
  case_decide; [reflexivity |].
  destruct (w_animations w !! _) as [other |]; [| reflexivity].
  cbv [modify].
  match goal with
  | |- w_animations (snd (refreshAnimList ?w1)) = _ =>
      change (w_animations (after refreshAnimList w1) = w_animations w1)
  end.
  apply refreshAnimList_preserves_animations.
Qed.

(** C6.  [moveAnimationById] keeps the length of the registry and its
    entries as a multiset.  When the (first) entry with the given id
    is at [idx] and [direction] is [-1] or [+1] with [idx + direction]
    in range, that entry and its neighbour at [idx + direction] change
    places and every other position is kept.  When no entry has the
    id, or [idx + direction] is out of range, the registry is
    unchanged. *)
Theorem moveAnimationById_spec (id : string) (direction : Z) (w : world) :
  let l := w_animations w in
  let l' := w_animations (after (moveAnimationById id direction) w) in
  length l' = length l /\
  l' ≡ₚ l /\
  (forall (idx : nat) (a : animation),
     list_find (fun a => a_id a = id) l = Some (idx, a) ->
     (direction = -1 \/ direction = 1)%Z ->
     (0 <= Z.of_nat idx + direction < Z.of_nat (length l))%Z ->
     let j := Z.to_nat (Z.of_nat idx + direction) in
     l' !! j = Some a /\
     l' !! idx = l !! j /\
     (forall k : nat, k <> idx -> k <> j -> l' !! k = l !! k)) /\
  (Forall (fun a => a_id a <> id) l -> l' = l) /\
  (forall (idx : nat) (a : animation),
     list_find (fun a => a_id a = id) l = Some (idx, a) ->
     (Z.of_nat idx + direction < 0 \/ Z.of_nat idx + direction >= Z.of_nat (length l))%Z ->
     l' = l).
Proof.
  intros l l'. subst l'. rewrite moveAnimationById_moved. fold l.
  unfold moved.
  destruct (list_find (fun a => a_id a = id) l) as [[idx tmp] |] eqn:Hfind.
  - apply list_find_Some in Hfind as Hspec. destruct Hspec as (Hidx & Hid & Hfirst).
    case_decide as Hrange.
    + split; [reflexivity |]. split; [reflexivity |]. split; [| split].
      * intros idx' a' [= <- <-] Hd Hin. lia.
      * reflexivity.
      * reflexivity.
    + destruct (l !! Z.to_nat (Z.of_nat idx + direction)) as [other |] eqn:Hother.
      * split; [rewrite !length_insert; reflexivity |].
        split; [apply swap_Permutation; assumption |].
        split; [| split].
        -- intros idx' a' [= <- <-] Hd Hin.
           set (j := Z.to_nat (Z.of_nat idx + direction)) in *.
           assert (Hj : (j < length l)%nat) by (eapply lookup_lt_Some, Hother).
           assert (Hne : idx <> j) by (subst j; lia).
           split; [| split].
           ++ apply list_lookup_insert_eq. rewrite length_insert. exact Hj.
           ++ rewrite list_lookup_insert_ne by (intros E; apply Hne; symmetry; exact E).
              rewrite list_lookup_insert_eq by (eapply lookup_lt_Some, Hidx).
              symmetry. exact Hother.
           ++ intros k Hk1 Hk2.
              rewrite !list_lookup_insert_ne by (intros E; subst; congruence).
              reflexivity.
        -- intros Hall. exfalso.
           rewrite Forall_forall in Hall.
           apply (Hall tmp); [| exact Hid].
           eapply list_elem_of_lookup_2, Hidx.
        -- intros idx' a' [= <- <-] Hout. exfalso. apply Hrange. lia.
      * apply lookup_ge_None in Hother.
        split; [reflexivity |]. split; [reflexivity |]. split; [| split].
        -- intros idx' a' [= <- <-] Hd Hin. lia.
        -- reflexivity.
        -- reflexivity.
  - split; [reflexivity |]. split; [reflexivity |]. split; [| split].
    + intros idx a; discriminate.
    + reflexivity.
    + reflexivity.
Qed.

(** *** Cancelling a point capture *)

Lemma capture_cancel (points : list coord) (latlngs : list LatLng)
    (rest : list ui_event) :
  capture true points ((Click_map <$> latlngs) ++ Click_cancel :: rest) =
  Throw (Error "cancelled").
Proof.
  revert points. induction latlngs as [| l latlngs IH]; intros points.
  - reflexivity.
  - cbn [fmap list_fmap app capture]. apply IH.
Qed.

(** C7.  When the user cancels a point capture (after any clicks on
    the map, for a capture of several points), [capturePoints]
    rejects with the error ['cancelled'], and the click handler of
    each capturing toolbar button returns normally and leaves the
    world, in particular the registry, as it was. *)
Theorem cancel_leaves_registry (b : capture_button) (latlngs : list LatLng)
    (rest : list ui_event) (w : world) :
  (captures_multiple b = false -> latlngs = []) ->
  let events := (Click_map <$> latlngs) ++ Click_cancel :: rest in
  result (capturePoints (captures_multiple b) events) w = Throw (Error "cancelled") /\
  click b events w = (Ret tt, w) /\
  w_animations (after (click b events) w) = w_animations w.
Proof.
  intros Hsingle events.
  assert (Hc : capture (captures_multiple b) [] events = Throw (Error "cancelled")).
  { destruct (captures_multiple b) eqn:Em.
    - apply capture_cancel.
    - subst events. rewrite (Hsingle eq_refl). reflexivity. }
  assert (Hclick : click b events w = (Ret tt, w)).
  { destruct b; cbn [captures_multiple] in Hc;
      cbv [click btnCircle btnSplit btnRoute btnPolygon btnDropMarker
           try_ignore try_catch capturePoints mbind M_bind bind];
      rewrite Hc; reflexivity. }
  split; [| split].
  - unfold result, capturePoints. cbn [fst]. exact Hc.
  - exact Hclick.
  - unfold after. rewrite Hclick. reflexivity.
Qed.

(** *** Persistence *)

Lemma scrub_serialisable (a : animation) : serialisable a = true -> scrub a = a.
Proof.
  destruct a as [id p]. unfold serialisable, scrub. cbn [a_params a_id].
  destruct p as [c [[| r] |] col | | pts [[| s] |] col | | | c [[| z] |]];
    cbn; intros; congruence.
Qed.

Lemma scrub_all_serialisable (l : list animation) :
  Forall (fun a => serialisable a = true) l -> scrub <$> l = l.
Proof.
  induction 1 as [| a l Ha _ IH]; [reflexivity |].
  cbn [fmap list_fmap]. rewrite (scrub_serialisable a Ha).
  f_equal. exact IH.
Qed.

(** What [saveAnimationsToStorage] stores when the storage takes it. *)
Lemma saveAnimationsToStorage_stores (w : world) :
  w_storage_full w = false ->
  w_storage (after saveAnimationsToStorage w) !! STORAGE_KEY =
  Some (JSON_stringify (w_animations w)).
Proof.
  intros Hfull. destruct w. cbn [w_storage_full] in Hfull. subst.
  unfold saveAnimationsToStorage, setItem. run_script.
  apply lookup_insert_eq.
Qed.

(** What [loadAnimationsFromStorage] makes of a stored array. *)
Lemma loadAnimationsFromStorage_array (w : world) (arr : list animation) :
  w_storage w !! STORAGE_KEY = Some (Text_array arr) ->
  w_animations (after loadAnimationsFromStorage w) = arr.
Proof.
  intros Hraw. unfold after, loadAnimationsFromStorage, getItem.
  cbv [try_catch mbind M_bind bind get mret M_ret ret]. rewrite Hraw.
  cbv [modify].
  destruct (refreshAnimList (set_animations arr w)) as [[[] | e |] w1] eqn:E;
    cbn [snd];
    pose proof (refreshAnimList_preserves_animations (set_animations arr w)) as P;
    unfold after in P; rewrite E in P; cbn [snd] in P.
  - rewrite P. destruct w; reflexivity.
  - cbv [emit modify set_log]. cbn [snd w_animations].
    rewrite P. destruct w; reflexivity.
  - rewrite P. destruct w; reflexivity.
Qed.

(** C5.  A registry without [NaN] that [saveAnimationsToStorage]
    stores (the storage taking the write) is what
    [loadAnimationsFromStorage] later puts into [ui.animations],
    whatever the registry holds in between, for instance nothing
    after a reload of the page. *)
Theorem storage_round_trip (w w2 : world) :
  Forall (fun a => serialisable a = true) (w_animations w) ->
  w_storage_full w = false ->
  w_storage w2 = w_storage (after saveAnimationsToStorage w) ->
  w_animations (after loadAnimationsFromStorage w2) = w_animations w /\
  w_animations
    (after (saveAnimationsToStorage ;; loadAnimationsFromStorage) w) =
  w_animations w.
Proof.
  intros Hser Hfull Hsame.
  pose proof (saveAnimationsToStorage_stores w Hfull) as Hst.
  unfold JSON_stringify in Hst. rewrite (scrub_all_serialisable _ Hser) in Hst.
  split.
  - apply loadAnimationsFromStorage_array. rewrite Hsame. exact Hst.
  - assert (Hret : exists w1, saveAnimationsToStorage w = (Ret tt, w1)).
    { destruct w. cbn [w_storage_full] in Hfull. subst.
      unfold saveAnimationsToStorage, setItem. run_script. eexists. reflexivity. }
    destruct Hret as [w1 Hw1].
    unfold after in *. cbv [mbind M_bind bind]. rewrite Hw1 in *. cbn [snd] in *.
    apply (loadAnimationsFromStorage_array w1). exact Hst.
Qed.

End Registry.

(** ** Keyframes *)

Section Keyframes.
Context `{!Leaflet, !Turf, !JSMath}.

(** C8.  [placeKeyframe] returns the centre (as [[lng, lat]]) and the
    zoom that the map has when it is called; the keyframe button
    stores them in a new entry; playing that entry flies the map to
    exactly that centre and zoom, and the map has that view when the
    playback of the entry ends. *)
Theorem keyframe_restores_view (opts : options) (w w' : world) (fuel : nat) :
  let centre := fst (w_view w) in
  let zoom := snd (w_view w) in
  exists k : keyframe,
    result (placeKeyframe opts) w = Ret k /\
    k_center k = (lng centre, lat centre) /\
    k_zoom k = zoom /\
    (exists k0 : keyframe,
       result (placeKeyframe no_opts) w = Ret k0 /\
       k_center k0 = k_center k /\ k_zoom k0 = k_zoom k /\
       w_animations (after btnKeyframe w) =
       w_animations w ++
         [mkAnimation (k_id k0) (P_keyframe (k_center k) (Some (k_zoom k)))]) /\
    (forall id : string,
       let a := mkAnimation id (P_keyframe (k_center k) (Some (k_zoom k))) in
       result (playAnimation fuel a) w' = Ret tt /\
       w_log (after (playAnimation fuel a) w') =
       w_log w' ++ [E_flyTo centre zoom (mkMove FLY_DURATION None);
                    E_await_moveend; E_sleep 800] /\
       w_view (after (playAnimation fuel a) w') = (centre, zoom)).
Proof.
  destruct w as [[c z] tg ks md an al st sf now lg].
  cbn [w_view fst snd].
  eexists. split; [unfold placeKeyframe; run_script; reflexivity |].
  cbn [k_center k_zoom].
  split; [reflexivity |]. split; [reflexivity |]. split.
  - eexists. split; [unfold placeKeyframe; run_script; reflexivity |].
    cbn [k_center k_zoom k_id].
    split; [reflexivity |]. split; [reflexivity |].
    unfold btnKeyframe.
    pose proof (addAnimationEntry_preserves_animations) as P.
    unfold placeKeyframe. run_script. cbn [k_id k_center k_zoom].
    match goal with
    | |- context [addAnimationEntry ?a ?w1] =>
        specialize (P a w1); unfold after in P;
        destruct (addAnimationEntry a w1) as [[[] | e |] w2]
    end; run_script; cbn [snd w_animations] in *; rewrite P; reflexivity.
  - intros id. destruct w' as [v' tg' ks' md' an' al' st' sf' now' lg'].
    destruct c as [clat clng].
    unfold playAnimation. cbn [a_params k_center k_zoom toLatLng fst snd lat lng].
    run_script. repeat split; reflexivity.
Qed.

End Keyframes.

(** ** The stepping loop of [drawRoute] *)

Section Route.
Context `{!Leaflet, !Turf, !JSMath}.

Variables (line : list coord) (drawn marker : layer).

(** One run of [step]: the two updates are logged, then the promise
    resolves or the next run is scheduled. *)
Lemma step_S (fuel : nat) (totalMeters stepMeters traveled : num) (w : world) :
  let t1 := Num.add traveled stepMeters in
  let t2 := if Num.gtb t1 totalMeters then totalMeters else t1 in
  let c := toLatLng (interpolateAlong line t2) in
  let w1 := set_log (fun l => l ++ [E_addLatLng drawn c; E_setLatLng marker c]) w in
  let w2 := set_log (fun l => l ++ [E_addLatLng drawn c; E_setLatLng marker c;
                                    E_nextFrame stepMs]) w in
  step (S fuel) line drawn marker totalMeters stepMeters traveled w =
  if Num.geb t2 totalMeters then (Ret tt, w1)
  else step fuel line drawn marker totalMeters stepMeters t2 w2.
Proof.
  destruct w. cbn [step]. run_script.
  destruct (Num.geb _ totalMeters); run_script; reflexivity.
Qed.





End Route.

Section RouteTermination.
Context `{!Leaflet, !Turf, !JSMath}.




End RouteTermination.

(** ** The log of a playback *)

Section Log.
Context `{!Leaflet, !Turf, !JSMath}.

Lemma added_spec {A} (m : M A) (w : world) :
  extends_log m -> w_log (after m w) = w_log w ++ added m w.
Proof.
  intros Hm. destruct (Hm w) as [es Hes]. unfold added.
  rewrite Hes, drop_app_length. reflexivity.
Qed.

Lemma added_intro {A} (m : M A) (w : world) (es : list event) :
  w_log (after m w) = w_log w ++ es -> added m w = es.
Proof. intros E. unfold added. rewrite E. apply drop_app_length. Qed.

(** The log of a sequence is the log of its first part followed, when
    that part returns, by the log of the rest. *)
Lemma added_seq {A B} (m : M A) (k : A -> M B) (w : world) :
  extends_log m -> (forall a, extends_log (k a)) ->
  added (m ≫= k) w =
  added m w ++ match result m w with
               | Ret a => added (k a) (after m w)
               | _ => []
               end.
Proof.
  intros Hm Hk.
  pose proof (added_spec m w Hm) as Em.
  apply added_intro.
  unfold after, result in *. cbv [mbind M_bind bind].
  destruct (m w) as [[a | e |] w1]; cbn [fst snd] in *.
  - pose proof (added_spec (k a) w1 (Hk a)) as Ek. unfold after in Ek.
    rewrite Ek, Em, app_assoc. reflexivity.
  - rewrite Em, app_nil_r. reflexivity.
  - rewrite Em, app_nil_r. reflexivity.
Qed.

Lemma added_seq_ret {A B} (m : M A) (k : A -> M B) (w : world) (a : A) :
  extends_log m -> (forall a, extends_log (k a)) ->
  result m w = Ret a ->
  added (m ≫= k) w = added m w ++ added (k a) (after m w).
Proof. intros Hm Hk Hr. rewrite added_seq by assumption. rewrite Hr. reflexivity. Qed.

Lemma added_emit (e : event) (w : world) : added (emit e) w = [e].
Proof. apply added_intro. destruct w. reflexivity. Qed.

Lemma added_ret {A} (a : A) (w : world) : added (mret a : M A) w = [].
Proof. apply added_intro. cbn. rewrite app_nil_r. reflexivity. Qed.

(** *** Drawing and playback change only the log and the view *)

Section Cosmetics.
Context (R : relation world) `{!PreOrder R, !Cosmetic R}.

Lemma fitBounds_respects b o : respects R (fitBounds b o).
Proof. unfold fitBounds. frame. Qed.

Lemma flyTo_respects c z o : respects R (flyTo c z o).
Proof. unfold flyTo. frame. Qed.

Lemma setZoom_respects z : respects R (setZoom z).
Proof. unfold setZoom. frame. Qed.

Lemma await_moveend_respects : respects R await_moveend.
Proof.
  unfold await_moveend. frame.
  apply respects_modify.
  intros w. destruct (w_target w); [apply cosmetic_view | reflexivity].
Qed.

Hint Resolve fitBounds_respects flyTo_respects setZoom_respects
  await_moveend_respects : frame.

Lemma drawCircle_respects c r col o : respects R (drawCircle c r col o).
Proof. unfold drawCircle, addLayer, setTimeout, Date_now. frame. Qed.

Lemma splitMap_respects a b side o : respects R (splitMap a b side o).
Proof. unfold splitMap, addLayer, setTimeout, getView. frame. Qed.

Lemma dropMarker_respects p col o : respects R (dropMarker p col o).
Proof. unfold dropMarker, addLayer. frame. Qed.

Lemma drawPolygon_respects pts col o : respects R (drawPolygon pts col o).
Proof.
  unfold drawPolygon, addLayer, setTimeout, Date_now.
  case_decide; frame.
Qed.

Lemma placeKeyframe_respects o : respects R (placeKeyframe o).
Proof. unfold placeKeyframe, addLayer, getCenter, getZoom, Date_now. frame. Qed.

Lemma step_respects fuel line drawn marker T s t :
  respects R (step fuel line drawn marker T s t).
Proof.
  revert t. induction fuel as [| fuel IH]; intros t; cbn [step].
  - frame.
  - frame. destruct (Num.geb _ T); frame.
Qed.

Hint Resolve drawCircle_respects splitMap_respects dropMarker_respects
  drawPolygon_respects placeKeyframe_respects step_respects : frame.

Lemma drawRoute_respects fuel pts speed o : respects R (drawRoute fuel pts speed o).
Proof.
  unfold drawRoute, addLayer. destruct pts as [| p0 [| p1 rest]]; frame.
Qed.

Hint Resolve drawRoute_respects : frame.

Lemma playAnimation_respects fuel a : respects R (playAnimation fuel a).
Proof.
  unfold playAnimation, sleep, getZoom.
  destruct (a_params a) as [c r col | pa pb side col | pts sp col | pts col | p col | c [z |]];
    frame.
Qed.

End Cosmetics.

Hint Resolve fitBounds_respects flyTo_respects setZoom_respects
  await_moveend_respects drawCircle_respects splitMap_respects
  dropMarker_respects drawPolygon_respects placeKeyframe_respects
  step_respects drawRoute_respects playAnimation_respects : frame.

Lemma hide_keyframes_extends_log : extends_log hide_keyframes.
Proof. unfold hide_keyframes. frame. Qed.

Lemma show_keyframes_extends_log : extends_log show_keyframes.
Proof. unfold show_keyframes. frame. Qed.

Hint Resolve hide_keyframes_extends_log show_keyframes_extends_log : frame.

Lemma setMode_extends_log m : extends_log (setMode m).
Proof. unfold setMode. destruct m; frame. Qed.

Hint Resolve setMode_extends_log : frame.

(** *** Transitions *)

Lemma added_fitBounds b o w : added (fitBounds b o) w = [E_fitBounds b o].
Proof. apply added_intro. destruct w. reflexivity. Qed.

Lemma added_flyTo c z o w : added (flyTo c z o) w = [E_flyTo c z o].
Proof. apply added_intro. destruct w. reflexivity. Qed.

Lemma added_await_moveend w : added await_moveend w = [E_await_moveend].
Proof. apply added_intro. destruct w as [v [t |] ? ? ? ? ? ? ? lg]; reflexivity. Qed.

Lemma arrived_fitBounds b o w :
  after await_moveend (after (fitBounds b o) w) = arrived (E_fitBounds b o) w.
Proof. destruct w. unfold arrived, fitBounds, target_of. run_script. reflexivity. Qed.

Lemma arrived_flyTo c z o w :
  after await_moveend (after (flyTo c z o) w) = arrived (E_flyTo c z o) w.
Proof. destruct w. unfold arrived, target_of. run_script. reflexivity. Qed.

(** A transition and the wait for its end, then the rest. *)
Lemma added_after_fitBounds {A} b o (k : M A) w :
  extends_log k ->
  added (fitBounds b o ;; await_moveend ;; k) w =
  [E_fitBounds b o; E_await_moveend] ++ added k (arrived (E_fitBounds b o) w).
Proof.
  intros Hk.
  rewrite (added_seq_ret _ _ _ tt) by (intros; first [solve [frame] | reflexivity]).
  rewrite (added_seq_ret _ _ _ tt) by (intros; first [solve [frame] | reflexivity]).
  rewrite added_fitBounds, added_await_moveend, arrived_fitBounds. reflexivity.
Qed.

Lemma added_after_flyTo {A} c z o (k : M A) w :
  extends_log k ->
  added (flyTo c z o ;; await_moveend ;; k) w =
  [E_flyTo c z o; E_await_moveend] ++ added k (arrived (E_flyTo c z o) w).
Proof.
  intros Hk.
  rewrite (added_seq_ret _ _ _ tt) by (intros; first [solve [frame] | reflexivity]).
  rewrite (added_seq_ret _ _ _ tt) by (intros; first [solve [frame] | reflexivity]).
  rewrite added_flyTo, added_await_moveend, arrived_flyTo. reflexivity.
Qed.

(** A primitive that returns, then a settle time. *)
Lemma added_then_sleep {A} (m : M A) (ms : Z) (w : world) :
  extends_log m -> (exists a, result m w = Ret a) ->
  added (m ;; sleep ms) w = added (m ;; mret tt) w ++ [E_sleep ms].
Proof.
  intros Hm [a Ha].
  rewrite !(added_seq_ret _ _ _ a) by (intros; first [solve [unfold sleep; frame] | exact Ha]).
  unfold sleep. rewrite added_emit, added_ret, app_nil_r. reflexivity.
Qed.

(** *** One entry *)

Lemma drawPolygon_added pts col o w :
  forallb (fun e => negb (is_transition e)) (added (drawPolygon pts col o) w) = true.
Proof.
  destruct w. unfold drawPolygon. case_decide.
  - rewrite added_ret. reflexivity.
  - erewrite added_intro; [| run_script; reflexivity]. reflexivity.
Qed.

Lemma playAnimation_added (fuel : nat) (a : animation) (w : world) :
  added (playAnimation fuel a) w =
  match transition_of a w with
  | Some t =>
      [t; E_await_moveend] ++ added (matching_primitive fuel a) (arrived t w)
        ++ settle_log a
  | None => added (matching_primitive fuel a) w ++ settle_log a
  end.
Proof.
  unfold playAnimation, matching_primitive, transition_of, settle_log, settle_of.
  destruct (a_params a) as [c r col | pa pb side col | pts sp col | pts col | p col | c zoom].
  - rewrite added_after_fitBounds by (unfold sleep; frame).
    rewrite added_then_sleep; [reflexivity | frame | eexists; reflexivity].
  - rewrite added_after_flyTo by (unfold sleep; frame).
    rewrite (added_seq_ret _ _ _ tt) by (intros; first [solve [unfold sleep; frame] | reflexivity]).
    unfold sleep. rewrite added_emit. reflexivity.
  - rewrite added_after_fitBounds by frame. rewrite app_nil_r. reflexivity.
  - rewrite added_then_sleep; [reflexivity | frame |].
    unfold drawPolygon. case_decide; eexists; reflexivity.
  - rewrite added_after_flyTo by (unfold sleep; frame).
    rewrite added_then_sleep; [reflexivity | frame | eexists; reflexivity].
  - rewrite added_ret. destruct w as [[c0 z0] ? ? ? ? ? ? ? ? lg].
    apply added_intro. destruct zoom as [z |]; run_script; reflexivity.
Qed.

(** *** The whole registry *)

Lemma added_ext {A} (m m' : M A) (w : world) : m w = m' w -> added m w = added m' w.
Proof. intros E. unfold added, after. rewrite E. reflexivity. Qed.

Lemma bind_assoc {A B C} (m : M A) (k : A -> M B) (h : B -> M C) (w : world) :
  ((m ≫= k) ≫= h) w = (m ≫= (fun a => k a ≫= h)) w.
Proof.
  cbv [mbind M_bind bind]. destruct (m w) as [[a | e |] w1]; reflexivity.
Qed.

Lemma bind_ext {A B} (m : M A) (k k' : A -> M B) (w : world) :
  (forall a w', k a w' = k' a w') -> (m ≫= k) w = (m ≫= k') w.
Proof.
  intros E. cbv [mbind M_bind bind]. destruct (m w) as [[a | e |] w1];
    [apply E | reflexivity | reflexivity].
Qed.

Lemma play_and_wait_respects (R : relation world) `{!PreOrder R, !Cosmetic R} fuel a :
  respects R (play_and_wait fuel a).
Proof. unfold play_and_wait, sleep. frame. Qed.

Hint Resolve play_and_wait_respects : frame.

Lemma for_each_added (fuel : nat) (l : list animation) (w : world) :
  added (for_each l (play_and_wait fuel)) w = playback fuel l w.
Proof.
  revert w. induction l as [| a l IH]; intros w; cbn [for_each playback].
  - apply added_ret.
  - rewrite added_seq by (intros; frame).
    fold (play_and_wait fuel a).
    destruct (result (play_and_wait fuel a) w) as [[] | e |]; [| reflexivity | reflexivity].
    rewrite IH. reflexivity.
Qed.

Lemma prologue_spec (w : world) :
  result prologue w = Ret tt /\
  w_animations (after prologue w) = w_animations w /\
  w_keyframes_shown (after prologue w) = false.
Proof.
  destruct w as [? ? [|] ? ? ? ? ? ? ?];
    unfold prologue, hide_keyframes, setMode, hide_keyframes; run_script;
    repeat split; reflexivity.
Qed.

Lemma epilogue_added (w : world) :
  w_keyframes_shown w = false ->
  added (setMode editor ;; show_keyframes) w = [E_map_addLayer keyframeLayer].
Proof.
  destruct w as [? ? ks ? ? ? ? ? ? ?]. cbn [w_keyframes_shown]. intros ->.
  apply added_intro. unfold setMode, show_keyframes. run_script. reflexivity.
Qed.

Lemma btnPlayAll_added (fuel : nat) (w : world) :
  let w1 := after prologue w in
  added (btnPlayAll fuel) w =
  added prologue w ++ playback fuel (w_animations w) w1 ++
    match result (for_each (w_animations w) (play_and_wait fuel)) w1 with
    | Ret _ => [E_map_addLayer keyframeLayer]
    | _ => []
    end.
Proof.
  intros w1. destruct (prologue_spec w) as (Hret & Hanims & Hshown). fold w1 in Hanims, Hshown.
  transitivity
    (added (prologue ≫= fun _ =>
            get ≫= fun w' =>
            for_each (w_animations w') (play_and_wait fuel) ≫= fun _ =>
            setMode editor ;; show_keyframes) w).
  { apply added_ext. unfold btnPlayAll, prologue. symmetry.
    rewrite bind_assoc. apply bind_ext. intros _ w'.
    rewrite bind_assoc. reflexivity. }
  rewrite (added_seq_ret _ _ _ tt); [| unfold prologue; frame | intros; frame | exact Hret].
  fold w1. f_equal.
  rewrite (added_seq_ret _ _ _ w1); [| frame | intros; frame | reflexivity].
  change (after get w1) with w1.
  change (added get w1) with (drop (length (w_log w1)) (w_log w1)).
  rewrite drop_all. cbn [app]. rewrite Hanims.
  rewrite added_seq by (intros; frame).
  rewrite for_each_added. f_equal.
  destruct (result (for_each (w_animations w) (play_and_wait fuel)) w1) as [[] | e |] eqn:E;
    [| reflexivity | reflexivity].
  apply epilogue_added.
  assert (P : preserves w_keyframes_shown (for_each (w_animations w) (play_and_wait fuel)))
    by frame.
  rewrite (P w1). exact Hshown.
Qed.

(** C1 (as amended).  [playAnimation] logs, in this order: for every
    entry but a polygon, a map transition ([flyTo] or [fitBounds])
    and the wait for its end; the calls of the drawing primitive that
    matches the type of the entry, none for a keyframe; a settle time
    of 6000 ms (circle, split, polygon), 500 ms (marker) or 800 ms
    (keyframe), none for a route, whose promise is awaited instead.
    [btnPlayAll] plays the entries in their stored order, each
    followed by 500 ms and each begun in the world that its
    predecessor left; it restores the keyframe layer when the last
    entry has completed. *)
Theorem playback_engine_sequence (fuel : nat) (a : animation) (w : world) :
  added (playAnimation fuel a) w =
    match transition_of a w with
    | Some t =>
        [t; E_await_moveend] ++ added (matching_primitive fuel a) (arrived t w)
          ++ settle_log a
    | None => added (matching_primitive fuel a) w ++ settle_log a
    end /\
  (forall t, transition_of a w = Some t -> is_transition t = true) /\
  (transition_of a w = None <-> a_type a = "polygon") /\
  (a_type a = "polygon" ->
   forallb (fun e => negb (is_transition e)) (added (playAnimation fuel a) w) = true) /\
  (a_type a = "keyframe" -> matching_primitive fuel a = mret tt) /\
  (settle_of a = None <-> a_type a = "route") /\
  added (btnPlayAll fuel) w =
    added prologue w ++
    playback fuel (w_animations w) (after prologue w) ++
    match result (for_each (w_animations w) (play_and_wait fuel)) (after prologue w) with
    | Ret _ => [E_map_addLayer keyframeLayer]
    | _ => []
    end.
Proof.
  split; [apply playAnimation_added |].
  split.
  { intros t. unfold transition_of.
    destruct (a_params a); intros [= <-]; reflexivity. }
  split.
  { unfold transition_of, a_type. destruct (a_params a); split; intros; congruence. }
  split.
  { intros Hty. rewrite playAnimation_added.
    unfold transition_of, matching_primitive, settle_log, settle_of, a_type in *.
    destruct (a_params a) as [| | | pts col | |]; try discriminate Hty.
    rewrite forallb_app, andb_true_iff. split; [| reflexivity].
    rewrite (added_seq_ret _ _ _ (if decide (length pts < 3)%nat then None
                                  else Some (str_or (o_id (opts_id (a_id a)))
                                                    ("polygon-" +:+ pretty (w_now w)))))
      by (intros; first [solve [frame]
                        | unfold drawPolygon; case_decide; destruct w; reflexivity]).
    rewrite added_ret, app_nil_r. apply drawPolygon_added. }
  split.
  { unfold matching_primitive, a_type. destruct (a_params a); intros; congruence. }
  split.
  { unfold settle_of, a_type. destruct (a_params a); split; intros; congruence. }
  apply btnPlayAll_added.
Qed.

(** C2 (as amended).  On valid input [drawCircle] and [drawPolygon]
    return the identifier of what they draw ([opts.id], or one made
    from the clock); [placeKeyframe] returns an object that carries
    such an identifier with the centre and the zoom; [dropMarker]
    returns the marker layer it has added; [splitMap] returns
    nothing; [drawRoute] returns a promise. *)
Theorem primitives_return_values (fuel : nat) (c : primitive_call) (w : world) :
  valid_call c ->
  match c with
  | Call_drawCircle _ _ _ opts =>
      result (call fuel c) w =
      Ret (V_string (str_or (o_id opts) ("circle-" +:+ pretty (w_now w))))
  | Call_drawPolygon _ _ opts =>
      result (call fuel c) w =
      Ret (V_string (str_or (o_id opts) ("polygon-" +:+ pretty (w_now w))))
  | Call_placeKeyframe opts =>
      exists k : keyframe,
        result (call fuel c) w = Ret (V_keyframe k) /\
        k_id k = str_or (o_id opts) ("keyframe-" +:+ pretty (w_now w)) /\
        k_center k = toLngLat (fst (w_view w)) /\
        k_zoom k = snd (w_view w)
  | Call_dropMarker _ _ _ =>
      exists marker : layer,
        result (call fuel c) w = Ret (V_layer marker) /\
        added (call fuel c) w = [E_addLayer animationLayer marker]
  | Call_splitMap _ _ _ _ => result (call fuel c) w = Ret V_undefined
  | Call_drawRoute _ _ _ => result (call fuel c) w = Ret V_promise
  end.
Proof.
  intros Hvalid. destruct w as [[c0 z0] ? ? ? ? ? ? ? now lg].
  destruct c as [centre r col o | pa pb side o | pts sp o | p col o | pts col o | o];
    cbn [valid_call] in Hvalid; cbn [call].
  - unfold drawCircle. run_script. reflexivity.
  - unfold splitMap. run_script. reflexivity.
  - reflexivity.
  - eexists. split.
    + unfold dropMarker. run_script. reflexivity.
    + apply added_intro. unfold dropMarker. run_script. reflexivity.
  - unfold drawPolygon. rewrite decide_False by lia. run_script. reflexivity.
  - eexists. unfold placeKeyframe. run_script. repeat split; reflexivity.
Qed.

End Log.

(** * Properties of the rest of the script *)

#[export] Instance same_animList_cosmetic : Cosmetic (same w_animList).
Proof. split; intros []; reflexivity. Qed.

#[export] Instance same_storage_cosmetic : Cosmetic (same w_storage).
Proof. split; intros []; reflexivity. Qed.

#[export] Instance same_storage_full_cosmetic : Cosmetic (same w_storage_full).
Proof. split; intros []; reflexivity. Qed.

#[export] Instance same_mode_cosmetic : Cosmetic (same w_mode).
Proof. split; intros []; reflexivity. Qed.

(** ** Saving and the sidebar list *)

Section Saving.
Context `{!Leaflet, !Turf, !JSMath}.

Lemma saveAnimationsToStorage_saved (w : world) :
  saveAnimationsToStorage w = (Ret tt, saved w).
Proof.
  destruct w as [? ? ? ? ? ? ? [|] ? ?];
    unfold saveAnimationsToStorage, setItem, saved; run_script; reflexivity.
Qed.

Lemma saved_fields (w : world) :
  w_animations (saved w) = w_animations w /\
  w_animList (saved w) = w_animList w /\
  w_storage_full (saved w) = w_storage_full w /\
  w_mode (saved w) = w_mode w /\
  w_keyframes_shown (saved w) = w_keyframes_shown w /\
  w_view (saved w) = w_view w.
Proof. destruct w as [? ? ? ? ? ? ? [|] ? ?]; repeat split; reflexivity. Qed.

Lemma saved_persisted (w : world) :
  w_storage_full w = false -> persisted (saved w).
Proof.
  destruct w as [? ? ? ? ? ? ? [|] ? ?]; [discriminate |]. intros _.
  unfold persisted, saved. cbn. apply lookup_insert_eq.
Qed.

Lemma saved_full (w : world) :
  w_storage_full w = true ->
  w_storage (saved w) = w_storage w /\
  w_log (saved w) = w_log w ++ [E_warn "Could not save"].
Proof.
  destruct w as [? ? ? ? ? ? ? [|] ? ?]; [| discriminate]. intros _.
  split; reflexivity.
Qed.

Lemma addAnimationEntry_saved (a : animation) (w : world) :
  addAnimationEntry a w =
  (Ret tt, saved (set_animList (w_animList w ++ [entry_label a]) w)).
Proof.
  unfold addAnimationEntry. cbv [mbind M_bind bind modify try_catch].
  rewrite saveAnimationsToStorage_saved. reflexivity.
Qed.

(** The rows that [refreshAnimList] appends, one per entry. *)
Lemma for_each_addAnimationEntry (l : list animation) (w : world) :
  exists w' : world,
    for_each l addAnimationEntry w = (Ret tt, w') /\
    w_animList w' = w_animList w ++ (entry_label <$> l) /\
    w_animations w' = w_animations w /\
    w_storage_full w' = w_storage_full w /\
    w_mode w' = w_mode w /\
    w_keyframes_shown w' = w_keyframes_shown w /\
    w_view w' = w_view w /\
    (w_storage_full w = true -> w_storage w' = w_storage w).
Proof.
  revert w. induction l as [| a l IH]; intros w.
  - exists w. cbn. rewrite app_nil_r. repeat split; reflexivity.
  - cbn [for_each]. cbv [mbind M_bind bind]. rewrite addAnimationEntry_saved.
    set (w1 := saved (set_animList (w_animList w ++ [entry_label a]) w)).
    destruct (IH w1) as (w' & E & Hl & Ha & Hf & Hm & Hk & Hv & Hs).
    destruct (saved_fields (set_animList (w_animList w ++ [entry_label a]) w))
      as (Sa & Sl & Sf & Sm & Sk & Sv).
    fold w1 in Sa, Sl, Sf, Sm, Sk, Sv.
    exists w'. split; [rewrite E; reflexivity |].
    rewrite Hl, Ha, Hf, Hm, Hk, Hv, Sa, Sl, Sf, Sm, Sk, Sv.
    split; [destruct w; cbn; rewrite <- app_assoc; reflexivity |].
    do 5 (split; [destruct w; reflexivity |]).
    intros Hfull. rewrite Hs by (rewrite Sf; destruct w; exact Hfull).
    destruct (saved_full (set_animList (w_animList w ++ [entry_label a]) w)) as [Hst _];
      [destruct w; exact Hfull |].
    unfold w1. rewrite Hst. destruct w; reflexivity.
Qed.

(** [refreshAnimList] rebuilds the sidebar from the registry and
    saves. *)
Lemma refreshAnimList_spec (w : world) :
  exists w' : world,
    refreshAnimList w = (Ret tt, w') /\
    w_animations w' = w_animations w /\
    in_sync w' /\
    w_storage_full w' = w_storage_full w /\
    w_mode w' = w_mode w /\
    w_keyframes_shown w' = w_keyframes_shown w /\
    w_view w' = w_view w /\
    (w_storage_full w = false -> persisted w') /\
    (w_storage_full w = true -> w_storage w' = w_storage w).
Proof.
  unfold refreshAnimList. cbv [mbind M_bind bind modify get].
  destruct (for_each_addAnimationEntry (w_animations (set_animList [] w)) (set_animList [] w))
    as (w1 & E & Hl & Ha & Hf & Hm & Hk & Hv & Hs).
  rewrite E. rewrite saveAnimationsToStorage_saved.
  destruct (saved_fields w1) as (Sa & Sl & Sf & Sm & Sk & Sv).
  exists (saved w1). split; [reflexivity |].
  assert (Ha' : w_animations w1 = w_animations w) by (rewrite Ha; destruct w; reflexivity).
  assert (Hf' : w_storage_full w1 = w_storage_full w) by (rewrite Hf; destruct w; reflexivity).
  split; [rewrite Sa; exact Ha' |].
  split.
  { unfold in_sync. rewrite Sl, Sa, Hl, Ha. destruct w; reflexivity. }
  split; [rewrite Sf; exact Hf' |].
  split; [rewrite Sm, Hm; destruct w; reflexivity |].
  split; [rewrite Sk, Hk; destruct w; reflexivity |].
  split; [rewrite Sv, Hv; destruct w; reflexivity |].
  split.
  - intros Hnf. apply saved_persisted. rewrite Hf'. exact Hnf.
  - intros Hfull.
    destruct (saved_full w1) as [Hst _]; [rewrite Hf'; exact Hfull |].
    rewrite Hst, Hs by (destruct w; exact Hfull). destruct w; reflexivity.
Qed.

(** A new entry is pushed and listed. *)
Lemma add_entry_spec (a : animation) (w : world) :
  exists w' : world,
    (push a ;; addAnimationEntry a) w = (Ret tt, w') /\
    w_animations w' = w_animations w ++ [a] /\
    w_animList w' = w_animList w ++ [entry_label a] /\
    w_storage_full w' = w_storage_full w /\
    w_mode w' = w_mode w /\
    w_keyframes_shown w' = w_keyframes_shown w /\
    w_view w' = w_view w /\
    (w_storage_full w = false -> persisted w') /\
    (w_storage_full w = true -> w_storage w' = w_storage w).
Proof.
  cbv [mbind M_bind bind push modify]. rewrite addAnimationEntry_saved.
  eexists. split; [reflexivity |].
  destruct w as [? ? ? ? an al st [|] ? ?]; cbn.
  - repeat split; try reflexivity. discriminate.
  - repeat split; try reflexivity; try discriminate.
    intros _. unfold persisted. cbn. apply lookup_insert_eq.
Qed.

End Saving.

(** ** The capturing buttons *)

Section Buttons.
Context `{!Leaflet, !Turf, !JSMath}.

Lemma grown_nil (w : world) : grown [] w w.
Proof.
  unfold grown. cbn. rewrite !app_nil_r.
  repeat split; try reflexivity. intros Hne. contradiction Hne. reflexivity.
Qed.

Lemma grown_log (w : world) (f : list event -> list event) : grown [] w (set_log f w).
Proof.
  destruct w. unfold grown. cbn. rewrite !app_nil_r.
  repeat split; try reflexivity. intros Hne. contradiction Hne. reflexivity.
Qed.

Lemma add_entry_grown (a : animation) (w : world) :
  exists w' : world,
    (push a ;; addAnimationEntry a) w = (Ret tt, w') /\ grown [a] w w'.
Proof.
  destruct (add_entry_spec a w) as (w' & E & Ha & Hl & Hf & Hm & Hk & Hv & Hp & Hs).
  exists w'. split; [exact E |].
  unfold grown. cbn [fmap list_fmap].
  repeat split; try assumption.
  - discriminate.
  - intros _. exact Hp.
Qed.

Lemma grown_after_log (a : animation) (w w' : world) (f : list event -> list event) :
  grown [a] (set_log f w) w' -> grown [a] w w'.
Proof. destruct w. unfold grown. cbn. tauto. Qed.

(** What a click on a capturing button does, by the way its capture
    ends. *)
Lemma click_outcome (b : capture_button) (events : list ui_event) (w : world) :
  match capture (captures_multiple b) [] events with
  | Ret pts =>
      exists w' : world,
        click b events w = (Ret tt, w') /\
        grown (option_list (entry_of b pts (w_now w))) w w'
  | Throw _ => click b events w = (Ret tt, w)
  | Pending => click b events w = (Pending, w)
  end.
Proof.
  destruct b as [radiusStr color | side color | speed color | color | color];
    cbn [captures_multiple];
    cbv [click btnCircle btnSplit btnRoute btnPolygon btnDropMarker
         try_ignore try_catch capturePoints];
    cbv [mbind M_bind bind];
    match goal with
    | |- context [capture ?m [] events] => destruct (capture m [] events) as [pts | e |]
    end; try reflexivity.
  - destruct pts as [| p0 pts]; [exists w; split; [reflexivity | apply grown_nil] |].
    cbv [new_id Date_now get mret M_ret ret mbind M_bind bind]. cbn [entry_of option_list].
    match goal with
    | |- context [addAnimationEntry ?a] =>
        destruct (add_entry_grown a w) as (w' & E & G)
    end.
    cbv [mbind M_bind bind] in E. rewrite E. exists w'. split; [reflexivity | exact G].
  - destruct pts as [| p0 [| p1 pts]];
      try (exists w; split; [reflexivity | apply grown_nil]).
    cbv [new_id Date_now get mret M_ret ret mbind M_bind bind]. cbn [entry_of option_list].
    match goal with
    | |- context [addAnimationEntry ?a] =>
        destruct (add_entry_grown a w) as (w' & E & G)
    end.
    cbv [mbind M_bind bind] in E. rewrite E. exists w'. split; [reflexivity | exact G].
  - destruct pts as [| p0 [| p1 pts]];
      try (exists w; split; [reflexivity | apply grown_nil]).
    cbv [new_id Date_now get mret M_ret ret mbind M_bind bind]. cbn [entry_of option_list].
    match goal with
    | |- context [addAnimationEntry ?a] =>
        destruct (add_entry_grown a w) as (w' & E & G)
    end.
    cbv [mbind M_bind bind] in E. rewrite E. exists w'. split; [reflexivity | exact G].
  - destruct pts as [| p0 [| p1 [| p2 pts]]];
      try (eexists; split; [reflexivity | apply grown_log]).
    cbv [new_id Date_now get mret M_ret ret mbind M_bind bind]. cbn [entry_of option_list].
    match goal with
    | |- context [addAnimationEntry ?a] =>
        destruct (add_entry_grown a w) as (w' & E & G)
    end.
    cbv [mbind M_bind bind] in E. rewrite E. exists w'. split; [reflexivity | exact G].
  - destruct pts as [| p0 pts]; [exists w; split; [reflexivity | apply grown_nil] |].
    cbv [new_id Date_now get mret M_ret ret mbind M_bind bind dropMarker addLayer emit modify].
    cbn [entry_of option_list].
    match goal with
    | |- context [addAnimationEntry ?a (set_log ?f ?w0)] => idtac
    | |- context [push ?a (set_log ?f w)] =>
        destruct (add_entry_grown a (set_log f w)) as (w' & E & G)
    end.
    cbv [mbind M_bind bind] in E. rewrite E. exists w'. split; [reflexivity |].
    replace (w_now w) with (w_now (set_log (fun l => l ++ [E_addLayer animationLayer
      (L_circleMarker (toLatLng (normalizeCoord p0))
         (Some (str_or (Some color) (str_or (o_fillColor (opts_id ("marker-" +:+ pretty (w_now w)))) "#ff0000")))
         (str_or (o_outlineColor (opts_id ("marker-" +:+ pretty (w_now w)))) "#000")
         (Some ("marker-" +:+ pretty (w_now w))))]) w)) in G by (destruct w; reflexivity).
    eapply grown_after_log, G.
Qed.

End Buttons.

(** ** Invariants of the handlers *)

#[export] Instance same_kept_cosmetic : Cosmetic (same kept).
Proof. split; intros []; reflexivity. Qed.

Section Handlers.
Context `{!Leaflet, !Turf, !JSMath}.

Hint Resolve playAnimation_respects : frame.

Lemma hide_keyframes_keeps : preserves kept hide_keyframes.
Proof. unfold hide_keyframes. frame. Qed.

Lemma show_keyframes_keeps : preserves kept show_keyframes.
Proof. unfold show_keyframes. frame. Qed.

Hint Resolve hide_keyframes_keeps show_keyframes_keeps : frame.

Lemma setMode_keeps (m : mode) : preserves kept (setMode m).
Proof. unfold setMode. destruct m; frame. Qed.

Hint Resolve setMode_keeps : frame.

Lemma modeToggle_click_keeps : preserves kept modeToggle_click.
Proof. unfold modeToggle_click. frame. Qed.

Lemma btnPlayAll_keeps (fuel : nat) : preserves kept (btnPlayAll fuel).
Proof. unfold btnPlayAll, clearLayers, sleep. frame. Qed.

Lemma playBtn_click_keeps (fuel : nat) (anim : animation) :
  preserves kept (playBtn_click fuel anim).
Proof.
  unfold playBtn_click. frame.
  destruct (list_find _ _) as [[i current] |]; frame.
Qed.




Lemma btnKeyframe_grown (w : world) :
  exists (w' : world) (a : animation),
    btnKeyframe w = (Ret tt, w') /\ grown [a] w w' /\
    a = mkAnimation ("keyframe-" +:+ pretty (w_now w))
          (P_keyframe (toLngLat (fst (w_view w))) (Some (snd (w_view w)))).
Proof.
  unfold btnKeyframe, placeKeyframe.
  cbv [try_catch mbind M_bind bind getCenter getZoom Date_now get mret M_ret ret
       addLayer emit modify].
  cbn [k_id k_center k_zoom o_id o_color o_outlineColor no_opts str_or].
  match goal with
  | |- context [push ?a (set_log ?f w)] =>
      destruct (add_entry_grown a (set_log f w)) as (w' & E & G)
  end.
  cbv [mbind M_bind bind] in E. rewrite E.
  exists w'. eexists. split; [reflexivity |].
  split; [eapply grown_after_log |].
  - replace (w_now w) with (w_now (set_log (fun l => l ++ [E_addLayer keyframeLayer
      (L_circleMarker (fst (w_view w)) (Some "#2ecc71") "#27ae60"
         (Some ("keyframe-" +:+ pretty (w_now w))))]) w)) by (destruct w; reflexivity).
    replace (w_view w) with (w_view (set_log (fun l => l ++ [E_addLayer keyframeLayer
      (L_circleMarker (fst (w_view w)) (Some "#2ecc71") "#27ae60"
         (Some ("keyframe-" +:+ pretty (w_now w))))]) w)) by (destruct w; reflexivity).
    exact G.
  - destruct w as [[c z] ? ? ? ? ? ? ? ? ?]. reflexivity.
Qed.

Lemma refresh_rebuilt (l : list animation) (w : world) :
  exists w' : world,
    (modify (set_animations l) ;; refreshAnimList) w = (Ret tt, w') /\ rebuilt l w w'.
Proof.
  cbv [mbind M_bind bind modify].
  destruct (refreshAnimList_spec (set_animations l w))
    as (w' & E & Ha & Hs & Hf & Hm & Hk & Hv & Hp & Hst).
  rewrite E. exists w'. split; [reflexivity |].
  unfold rebuilt. rewrite Ha, Hf, Hm, Hk, Hv.
  destruct w; cbn in *. repeat split; assumption.
Qed.

Lemma btnClear_outcome (confirmed : bool) (w : world) :
  exists w' : world,
    btnClear confirmed w = (Ret tt, w') /\
    if confirmed then rebuilt [] w w' else w' = w.
Proof.
  destruct confirmed; [| exists w; split; reflexivity].
  unfold btnClear. cbn [negb]. cbv [mbind M_bind bind modify clearLayers emit].
  rewrite saveAnimationsToStorage_saved. eexists. split; [reflexivity |].
  destruct w as [? ? ? ? ? ? ? [|] ? ?]; unfold rebuilt, in_sync, persisted; cbn;
    repeat split; try reflexivity; try discriminate.
  intros _. apply lookup_insert_eq.
Qed.

Lemma moveAnimationById_outcome (id : string) (direction : Z) (w : world) :
  exists w' : world,
    moveAnimationById id direction w = (Ret tt, w') /\
    (w' = w \/ rebuilt (moved id direction (w_animations w)) w w').
Proof.
  unfold moveAnimationById, moved. cbv [mbind M_bind bind get].
  destruct (list_find _ (w_animations w)) as [[idx tmp] |];
    [| exists w; split; [reflexivity | left; reflexivity]].
  case_decide; [exists w; split; [reflexivity | left; reflexivity] |].
  destruct (w_animations w !! _) as [other |];
    [| exists w; split; [reflexivity | left; reflexivity]].
  match goal with
  | |- context [set_animations ?l] => destruct (refresh_rebuilt l w) as (w' & E & R)
  end.
  cbv [mbind M_bind bind] in E. rewrite E.
  exists w'. split; [reflexivity | right; exact R].
Qed.

Lemma loadAnimationsFromStorage_outcome (w : world) :
  exists w' : world,
    loadAnimationsFromStorage w = (Ret tt, w') /\
    match w_storage w !! STORAGE_KEY with
    | Some (Text_array arr) => rebuilt arr w w'
    | Some Text_malformed =>
        w' = set_log (fun l => l ++ [E_warn "Could not load animations"]) w
    | _ => w' = w
    end.
Proof.
  unfold loadAnimationsFromStorage, getItem.
  cbv [try_catch mbind M_bind bind get mret M_ret ret].
  destruct (w_storage w !! STORAGE_KEY) as [[arr | | |] |];
    try (eexists; split; reflexivity).
  destruct (refresh_rebuilt arr w) as (w' & E & R).
  cbv [mbind M_bind bind] in E. rewrite E.
  exists w'. split; [reflexivity | exact R].
Qed.

Lemma fileInput_change_outcome (file : option stored) (w : world) :
  exists w' : world,
    fileInput_change file w = (Ret tt, w') /\
    match file with
    | None => w' = w
    | Some (Text_array arr) =>
        exists w1 : world,
          rebuilt arr w w1 /\
          w' = set_log (fun l => l ++ [E_alert ("Imported " +:+ pretty (length arr)
                                                  +:+ " animations")]) w1
    | Some Text_not_array =>
        w' = set_log (fun l => l ++ [E_alert "Import failed: Invalid file"]) w
    | Some _ =>
        w' = set_log (fun l => l ++ [E_alert "Import failed: SyntaxError"]) w
    end.
Proof.
  unfold fileInput_change.
  destruct file as [[arr | | |] |]; try (eexists; split; reflexivity).
  destruct (refresh_rebuilt arr w) as (w1 & E & R).
  cbv [try_catch mbind M_bind bind modify] in *. rewrite E.
  eexists. split; [reflexivity |]. exists w1. split; [exact R | reflexivity].
Qed.

Lemma rebuilt_log (l : list animation) (w w1 : world) (f : list event -> list event) :
  rebuilt l w w1 -> rebuilt l w (set_log f w1).
Proof. destruct w1. unfold rebuilt, in_sync, persisted. cbn. tauto. Qed.

End Handlers.

(** ** The editor as a whole *)

Section Editor.
Context `{!Leaflet, !Turf, !JSMath}.

Lemma capture_clicks (acc : list coord) (ls : list LatLng) (events : list ui_event) :
  capture true acc ((Click_map <$> ls) ++ events) =
  capture true (acc ++ (toLngLat <$> ls)) events.
Proof.
  revert acc. induction ls as [| l ls IH]; intros acc.
  - cbn. rewrite app_nil_r. reflexivity.
  - cbn [fmap list_fmap app capture]. rewrite IH, <- app_assoc. reflexivity.
Qed.

(** X1.  [capturePoints] hands over the clicked points in the order of
    the clicks, each as [[lng, lat]]: with [multiple] all those before
    the Done button is pressed, otherwise the first one alone, whatever
    is clicked afterwards; while only map clicks arrive in [multiple]
    mode its promise stays pending.  It changes nothing of the editor's
    state. *)
Theorem capturePoints_collects_clicks
    (ls : list LatLng) (l : LatLng) (rest : list ui_event) (w : world) :
  capturePoints true ((Click_map <$> ls) ++ Click_stop :: rest) w =
    (Ret (toLngLat <$> ls), w) /\
  capturePoints false (Click_map l :: rest) w = (Ret [toLngLat l], w) /\
  capturePoints true (Click_map <$> ls) w = (Pending, w).
Proof.
  unfold capturePoints. repeat split.
  - rewrite capture_clicks. reflexivity.
  - rewrite <- (app_nil_r (Click_map <$> ls)), capture_clicks. reflexivity.
Qed.

Lemma click_grown (b : capture_button) (events : list ui_event) (w : world) :
  (exists new : list animation,
     (length new <= 1)%nat /\ grown new w (after (click b events) w)) /\
  (forall e : error, result (click b events) w <> Throw e).
Proof.
  pose proof (click_outcome b events w) as Hc. unfold after, result.
  destruct (capture (captures_multiple b) [] events) as [pts | e |].
  - destruct Hc as (w' & -> & G). split; [| discriminate].
    exists (option_list (entry_of b pts (w_now w))). split; [| exact G].
    destruct (entry_of b pts (w_now w)); cbn; lia.
  - rewrite Hc. split; [| discriminate].
    exists []. split; [cbn; lia | apply grown_nil].
  - rewrite Hc. split; [| discriminate].
    exists []. split; [cbn; lia | apply grown_nil].
Qed.

(** X2.  A click on one of the five capturing buttons, however its
    capture ends, never makes the handler fail and never removes,
    replaces or reorders an entry: the registry grows at its end by at
    most one entry and the sidebar by the row of that entry, and mode,
    map view and keyframe visibility stay as they were. *)
Theorem click_appends_at_most_one
    (b : capture_button) (events : list ui_event) (w : world) :
  (exists new : list animation,
     (length new <= 1)%nat /\
     w_animations (after (click b events) w) = w_animations w ++ new /\
     w_animList (after (click b events) w) = w_animList w ++ (entry_label <$> new) /\
     w_mode (after (click b events) w) = w_mode w /\
     w_view (after (click b events) w) = w_view w /\
     w_keyframes_shown (after (click b events) w) = w_keyframes_shown w) /\
  (forall e : error, result (click b events) w <> Throw e).
Proof.
  destruct (click_grown b events w) as [(new & Hlen & G) Hne].
  split; [| exact Hne].
  destruct G as (Ha & Hl & _ & Hm & Hk & Hv & _).
  exists new. repeat split; assumption.
Qed.

Lemma entry_of_needed (b : capture_button) (pts : list coord) (now : N) :
  ((length pts < needed b)%nat -> entry_of b pts now = None) /\
  ((needed b <= length pts)%nat -> exists a : animation, entry_of b pts now = Some a).
Proof.
  destruct b; cbn [needed entry_of];
    destruct pts as [| p0 [| p1 [| p2 pts]]]; cbn [length];
    split; intros Hn; try lia; try reflexivity; eexists; reflexivity.
Qed.

(** X3.  When a capture ends with fewer points than the button needs
    (one for a circle or a marker, two for a split or a route, three
    for a polygon) the click leaves registry, sidebar and stored text
    as they were; with enough points it appends exactly one entry,
    whose row is added to the sidebar. *)
Theorem click_needs_enough_points
    (b : capture_button) (events : list ui_event) (pts : list coord) (w : world) :
  capture (captures_multiple b) [] events = Ret pts ->
  ((length pts < needed b)%nat -> kept (after (click b events) w) = kept w) /\
  ((needed b <= length pts)%nat ->
   exists a : animation,
     entry_of b pts (w_now w) = Some a /\
     w_animations (after (click b events) w) = w_animations w ++ [a] /\
     w_animList (after (click b events) w) = w_animList w ++ [entry_label a]).
Proof.
  intros Hcap. pose proof (click_outcome b events w) as Hc. rewrite Hcap in Hc.
  destruct Hc as (w' & E & G). unfold after. rewrite E. cbn [snd].
  destruct (entry_of_needed b pts (w_now w)) as [Hfew Henough].
  split; intros Hn.
  - rewrite (Hfew Hn) in G. cbn [option_list] in G.
    destruct G as (Ha & Hl & Hf & _ & _ & _ & Hs & _).
    unfold kept. rewrite Ha, Hl, Hf, (Hs eq_refl), !app_nil_r. reflexivity.
  - destruct (Henough Hn) as [a Ea]. rewrite Ea in G. cbn [option_list] in G.
    destruct G as (Ha & Hl & _).
    exists a. repeat split; assumption.
Qed.

(** X4.  The entries that the buttons with several points store: a
    split keeps the first two clicked points, in the order of the
    clicks, and drops any further one; a route and a polygon keep all
    clicked points in order.  The points are stored as [[lng, lat]]
    and the entry's id is built from the clock. *)
Theorem click_stores_clicked_points
    (l0 l1 : LatLng) (more : list LatLng) (rest : list ui_event)
    (side speed color : jsstring) (w : world) :
  let events := (Click_map <$> (l0 :: l1 :: more)) ++ Click_stop :: rest in
  let pts := toLngLat <$> (l0 :: l1 :: more) in
  let id := "anim-" +:+ pretty (w_now w) in
  w_animations (after (click (Btn_split side color) events) w) =
    w_animations w ++ [mkAnimation id (P_split (toLngLat l0) (toLngLat l1) side color)] /\
  w_animations (after (click (Btn_route speed color) events) w) =
    w_animations w ++ [mkAnimation id (P_route pts (Some (parseFloat_or speed 120)) color)] /\
  (more <> [] ->
   w_animations (after (click (Btn_polygon color) events) w) =
     w_animations w ++ [mkAnimation ("polygon-" +:+ pretty (w_now w)) (P_polygon pts color)]).
Proof.
  intros events pts id.
  assert (Hcap : capture true [] events = Ret pts).
  { unfold events. rewrite capture_clicks. reflexivity. }
  repeat split.
  - pose proof (click_outcome (Btn_split side color) events w) as Hc.
    cbn [captures_multiple] in Hc. rewrite Hcap in Hc.
    destruct Hc as (w' & E & G & _). unfold after. rewrite E. exact G.
  - pose proof (click_outcome (Btn_route speed color) events w) as Hc.
    cbn [captures_multiple] in Hc. rewrite Hcap in Hc.
    destruct Hc as (w' & E & G & _). unfold after. rewrite E. exact G.
  - intros Hmore.
    pose proof (click_outcome (Btn_polygon color) events w) as Hc.
    cbn [captures_multiple] in Hc. rewrite Hcap in Hc.
    destruct Hc as (w' & E & G & _). unfold after. rewrite E.
    destruct more as [| l2 more]; [contradiction Hmore; reflexivity |]. exact G.
Qed.

Lemma result_setMode (m : mode) (w : world) : result (setMode m) w = Ret tt.
Proof.
  destruct w as [? ? [|] ? ? ? ? ? ? ?]; destruct m;
    unfold result, setMode, hide_keyframes, show_keyframes; run_script; reflexivity.
Qed.

Lemma kept_log (w : world) (f : list event -> list event) : kept (set_log f w) = kept w.
Proof. destruct w. reflexivity. Qed.

(** Every action leaves the editor's state [settled]. *)
Lemma perform_settled (a : action) (w : world) : settled w (after (perform a) w).
Proof.
  destruct a as [b events | | confirmed | id direction | | file | | fuel | fuel anim];
    cbn [perform].
  - right. left. apply click_grown.
  - destruct (btnKeyframe_grown w) as (w' & a & E & G & _).
    unfold after. rewrite E. right. left. exists [a]. split; [cbn; lia | exact G].
  - destruct (btnClear_outcome confirmed w) as (w' & E & R).
    unfold after. rewrite E. cbn [snd]. destruct confirmed.
    + right. right. exists []. exact R.
    + left. rewrite R. reflexivity.
  - destruct (moveAnimationById_outcome id direction w) as (w' & E & [-> | R]);
      unfold after; rewrite E; cbn [snd].
    + left. reflexivity.
    + right. right. eexists. exact R.
  - destruct (loadAnimationsFromStorage_outcome w) as (w' & E & R).
    unfold after. rewrite E. cbn [snd].
    destruct (w_storage w !! STORAGE_KEY) as [[arr | | |] |];
      try (left; rewrite R; first [apply kept_log | reflexivity]).
    right. right. exists arr. exact R.
  - destruct (fileInput_change_outcome file w) as (w' & E & R).
    unfold after. rewrite E. cbn [snd].
    destruct file as [[arr | | |] |];
      try (left; rewrite R; first [apply kept_log | reflexivity]).
    destruct R as (w1 & R & ->). right. right. exists arr. apply rebuilt_log, R.
  - left. apply modeToggle_click_keeps.
  - left. apply btnPlayAll_keeps.
  - left. apply playBtn_click_keeps.
Qed.


Lemma kept_persisted (w w' : world) : kept w' = kept w -> persisted w -> persisted w'.
Proof. unfold kept, persisted. intros [= Ha _ Hs _]. rewrite Ha, Hs. tauto. Qed.


Lemma perform_result (a : action) (w : world) :
  plays a = false -> forall e : error, result (perform a) w <> Throw e.
Proof.
  intros Hp e.
  destruct a as [b events | | confirmed | id direction | | file | | fuel | fuel anim];
    cbn [perform]; try discriminate Hp.
  - apply click_grown.
  - destruct (btnKeyframe_grown w) as (w' & a & E & _). unfold result. rewrite E. discriminate.
  - destruct (btnClear_outcome confirmed w) as (w' & E & _).
    unfold result. rewrite E. discriminate.
  - destruct (moveAnimationById_outcome id direction w) as (w' & E & _).
    unfold result. rewrite E. discriminate.
  - destruct (loadAnimationsFromStorage_outcome w) as (w' & E & _).
    unfold result. rewrite E. discriminate.
  - destruct (fileInput_change_outcome file w) as (w' & E & _).
    unfold result. rewrite E. discriminate.
  - unfold modeToggle_click. unfold result. cbv [mbind M_bind bind get].
    destruct (w_mode w).
    + change (result (setMode viewer) w <> Throw e). rewrite result_setMode. discriminate.
    + change (result (setMode editor) w <> Throw e). rewrite result_setMode. discriminate.
Qed.

(** X7.  A full storage never stops the editor: no action other than
    playing entries raises an error, whether the storage takes the
    registry or not, and when it is full no action at all changes any
    stored text or clears the full condition. *)
Theorem storage_failure_is_contained (a : action) (w : world) :
  (plays a = false -> forall e : error, result (perform a) w <> Throw e) /\
  (w_storage_full w = true ->
   w_storage (after (perform a) w) = w_storage w /\
   w_storage_full (after (perform a) w) = true).
Proof.
  split; [apply perform_result |].
  intros Hfull.
  destruct (perform_settled a w) as [K | [(new & _ & G) | (l & R)]].
  - unfold kept in K. injection K as _ _ Hs Hf. rewrite Hs, Hf. split; [reflexivity | exact Hfull].
  - destruct G as (_ & _ & Hf & _ & _ & _ & _ & Hs & _).
    rewrite Hf. split; [apply Hs |]; exact Hfull.
  - destruct R as (_ & _ & Hf & _ & _ & _ & _ & Hs).
    rewrite Hf. split; [apply Hs |]; exact Hfull.
Qed.


(** X9.  Clear, once confirmed, empties the registry and the sidebar,
    clears the animation layer and, when the storage takes it, stores
    the empty array; when the question is declined nothing at all
    happens. *)
Theorem btnClear_spec (confirmed : bool) (w : world) :
  result (btnClear confirmed) w = Ret tt /\
  if confirmed then
    w_animations (after (btnClear true) w) = [] /\
    w_animList (after (btnClear true) w) = [] /\
    E_clearLayers animationLayer ∈ added (btnClear true) w /\
    (w_storage_full w = false ->
     w_storage (after (btnClear true) w) !! STORAGE_KEY = Some (Text_array []))
  else after (btnClear false) w = w.
Proof.
  destruct confirmed; [| split; reflexivity].
  unfold result, after, added, after, btnClear. cbn [negb].
  cbv [mbind M_bind bind modify clearLayers emit].
  rewrite saveAnimationsToStorage_saved. cbn [fst snd].
  destruct w as [? ? ? ? ? ? ? [|] ? lg]; cbn;
    rewrite <- ?app_assoc, ?drop_app_length; cbn [app];
    repeat split; try discriminate.
  - constructor.
  - constructor.
  - intros _. apply lookup_insert_eq.
Qed.



(** ** The buttons of a sidebar row *)

Lemma remove_tagged_spec (g : group) (id : string) (held : list layer) (w : world) :
  remove_tagged g id held w =
  (Ret tt,
   set_log (fun _ => w_log w ++
              (E_removeLayer g <$> filter (fun l => layer_animId l = Some id) held)) w).
Proof.
  unfold remove_tagged. revert w. induction held as [| l held IH]; intros w.
  - cbn. rewrite app_nil_r. destruct w; reflexivity.
  - cbn [for_each]. cbv [mbind M_bind bind]. rewrite filter_cons.
    case_bool_decide as Hd.
    + rewrite decide_True by exact Hd.
      cbv [when removeLayer emit modify]. rewrite IH.
      destruct w. cbn. rewrite <- app_assoc. reflexivity.
    + rewrite decide_False by exact Hd.
      cbv [when ret]. rewrite IH. reflexivity.
Qed.

Lemma delBtn_click_outcome (anim : animation) (li : nat)
    (inAnimationLayer inKeyframeLayer : list layer) (w : world) :
  delBtn_click anim li inAnimationLayer inKeyframeLayer w =
  (Ret tt,
   saved (set_animList (delete li (w_animList w))
            (set_log (fun _ => w_log w ++
                        (E_removeLayer animationLayer <$>
                           filter (fun l => layer_animId l = Some (a_id anim))
                                  inAnimationLayer) ++
                        (E_removeLayer keyframeLayer <$>
                           filter (fun l => layer_animId l = Some (a_id anim))
                                  inKeyframeLayer))
               (set_animations
                  (filter (fun a => a_id a ≠ a_id anim) (w_animations w)) w)))).
Proof.
  unfold delBtn_click, try_ignore.
  cbv [mbind M_bind bind modify try_catch].
  rewrite !remove_tagged_spec. rewrite saveAnimationsToStorage_saved.
  destruct w. cbn. rewrite <- app_assoc. reflexivity.
Qed.

Lemma filter_all {A} (P : A -> Prop) `{!forall x, Decision (P x)} (l : list A) :
  Forall P l -> filter P l = l.
Proof.
  induction 1 as [| a l Ha _ IH]; [reflexivity |].
  rewrite filter_cons, decide_True by exact Ha. f_equal. exact IH.
Qed.

Lemma filter_delete_unique {A B} (f : A -> B) `{!EqDecision B} (l : list A)
    (i : nat) (x : A) :
  NoDup (f <$> l) -> l !! i = Some x ->
  filter (fun a => f a ≠ f x) l = delete i l.
Proof.
  revert i. induction l as [| a l IH]; intros i Hnd Hi; [discriminate |].
  cbn [fmap list_fmap] in Hnd. apply NoDup_cons in Hnd as [Hnotin Hnd].
  rewrite filter_cons. destruct i as [| i]; cbn in Hi.
  - injection Hi as ->. rewrite decide_False by (intros Hne; apply Hne; reflexivity).
    cbn [delete list_delete]. apply filter_all, Forall_forall. intros a Ha Heq.
    apply Hnotin. rewrite <- Heq. apply list_elem_of_fmap_2, Ha.
  - rewrite decide_True.
    + cbn [delete list_delete]. f_equal. apply IH; assumption.
    + intros Heq. apply Hnotin. rewrite Heq.
      apply list_elem_of_fmap_2. eapply list_elem_of_lookup_2, Hi.
Qed.

(** X10.  Delete on the row of an entry, in an editor whose sidebar is
    in step with a registry of entries with distinct ids: the handler
    does not fail, exactly that entry leaves the registry, the others
    keep their order, the sidebar is still in step, the new registry
    is stored when the storage takes it, and mode and map view are
    untouched. *)
Theorem delBtn_click_removes_its_entry
    (anim : animation) (li : nat) (inAnimationLayer inKeyframeLayer : list layer)
    (w : world) :
  in_sync w ->
  NoDup (a_id <$> w_animations w) ->
  w_animations w !! li = Some anim ->
  let w' := after (delBtn_click anim li inAnimationLayer inKeyframeLayer) w in
  result (delBtn_click anim li inAnimationLayer inKeyframeLayer) w = Ret tt /\
  w_animations w' = delete li (w_animations w) /\
  in_sync w' /\
  (w_storage_full w = false -> persisted w') /\
  w_mode w' = w_mode w /\
  w_view w' = w_view w.
Proof.
  intros Hs Hnd Hli w'. unfold w', result, after.
  rewrite delBtn_click_outcome. cbn [fst snd].
  match goal with |- context [saved ?w1] => set (w1' := w1) end.
  destruct (saved_fields w1') as (Sa & Sl & Sf & Sm & Sk & Sv).
  assert (Ea : w_animations w1' = delete li (w_animations w)).
  { unfold w1'. destruct w. cbn. apply (filter_delete_unique a_id); assumption. }
  assert (El : w_animList w1' = delete li (w_animList w)).
  { unfold w1'. destruct w. reflexivity. }
  split; [reflexivity |].
  split; [rewrite Sa; exact Ea |].
  split.
  { unfold in_sync. rewrite Sl, Sa, El, Ea, Hs. symmetry. apply list_fmap_delete. }
  split.
  { intros Hnf. apply saved_persisted. unfold w1'. destruct w. exact Hnf. }
  split; [rewrite Sm | rewrite Sv]; unfold w1'; destruct w; reflexivity.
Qed.

(** X11.  Delete in general: the handler never fails; every entry that
    carries the id of the row's entry leaves the registry, all of them
    when the id is repeated, while one row leaves the sidebar; from
    the animation layer and from the keyframe layer exactly the layers
    tagged with that id are removed, in the order in which the groups
    hold them; and a storage that is full only adds a warning. *)
Theorem delBtn_click_removes_tagged
    (anim : animation) (li : nat) (inAnimationLayer inKeyframeLayer : list layer)
    (w : world) :
  let w' := after (delBtn_click anim li inAnimationLayer inKeyframeLayer) w in
  let tagged := fun l : layer => layer_animId l = Some (a_id anim) in
  result (delBtn_click anim li inAnimationLayer inKeyframeLayer) w = Ret tt /\
  (forall a : animation, a ∈ w_animations w' <-> a ∈ w_animations w /\ a_id a ≠ a_id anim) /\
  w_animations w' = filter (fun a => a_id a ≠ a_id anim) (w_animations w) /\
  w_animList w' = delete li (w_animList w) /\
  added (delBtn_click anim li inAnimationLayer inKeyframeLayer) w =
    (E_removeLayer animationLayer <$> filter tagged inAnimationLayer) ++
    (E_removeLayer keyframeLayer <$> filter tagged inKeyframeLayer) ++
    (if w_storage_full w then [E_warn "Could not save"] else []).
Proof.
  intros w' tagged. unfold w', tagged, result, added, after.
  rewrite delBtn_click_outcome. cbn [fst snd].
  match goal with |- context [saved ?w1] => set (w1' := w1) end.
  destruct (saved_fields w1') as (Sa & Sl & _).
  assert (Ea : w_animations w1' = filter (fun a => a_id a ≠ a_id anim) (w_animations w)).
  { unfold w1'. destruct w. reflexivity. }
  split; [reflexivity |].
  split.
  { intros a. rewrite Sa, Ea, list_elem_of_filter. tauto. }
  split; [rewrite Sa; exact Ea |].
  split; [rewrite Sl; unfold w1'; destruct w; reflexivity |].
  unfold w1'. destruct w as [? ? ? ? ? ? ? [|] ? lg]; cbn;
    rewrite <- ?app_assoc, drop_app_length, ?app_nil_r; reflexivity.
Qed.

(** X12.  Play on the row of an entry plays that entry when the ids
    of the registry are distinct.  In general it plays the entry that
    the registry holds under the row's id at the time of the click,
    the first one if several do, and the entry the row was made for
    only when the registry holds none with that id. *)
Theorem playBtn_click_plays_current_entry (fuel : nat) (anim : animation) (w : world) :
  (forall li : nat,
     NoDup (a_id <$> w_animations w) ->
     w_animations w !! li = Some anim ->
     playBtn_click fuel anim w = playAnimation fuel anim w) /\
  (forall (i : nat) (current : animation),
     w_animations w !! i = Some current ->
     a_id current = a_id anim ->
     (forall (j : nat) (a : animation),
        w_animations w !! j = Some a -> (j < i)%nat -> a_id a ≠ a_id anim) ->
     playBtn_click fuel anim w = playAnimation fuel current w) /\
  (Forall (fun a => a_id a ≠ a_id anim) (w_animations w) ->
   playBtn_click fuel anim w = playAnimation fuel anim w).
Proof.
  assert (Hfirst : forall (i : nat) (current : animation),
            w_animations w !! i = Some current ->
            a_id current = a_id anim ->
            (forall (j : nat) (a : animation),
               w_animations w !! j = Some a -> (j < i)%nat -> a_id a ≠ a_id anim) ->
            playBtn_click fuel anim w = playAnimation fuel current w).
  { intros i current Hi Hid Hbefore.
    assert (E : list_find (fun a => a_id a = a_id anim) (w_animations w) = Some (i, current)).
    { apply list_find_Some. repeat split; assumption. }
    unfold playBtn_click. cbv [mbind M_bind bind get]. rewrite E. reflexivity. }
  split; [| split; [exact Hfirst |]].
  - intros li Hnd Hli. apply (Hfirst li anim Hli eq_refl).
    intros j a Hj Hlt Heq.
    assert (Hjl : j = li); [| lia].
    apply (NoDup_lookup (a_id <$> w_animations w) j li (a_id anim) Hnd).
    + rewrite list_lookup_fmap, Hj. cbn. rewrite Heq. reflexivity.
    + rewrite list_lookup_fmap, Hli. reflexivity.
  - intros Hnone.
    assert (E : list_find (fun a => a_id a = a_id anim) (w_animations w) = None).
    { apply list_find_None. exact Hnone. }
    unfold playBtn_click. cbv [mbind M_bind bind get]. rewrite E. reflexivity.
Qed.

(** ** Export and import *)


(** X14.  An import that cannot be used changes nothing: when no file
    is chosen the handler does nothing at all, and when the text of the
    file is empty, is no JSON, or is the JSON of something that is no
    array, registry, sidebar and storage stay as they were and the one
    thing that happens is an alert that begins with [Import failed: ].
    In no case does the handler fail. *)
Theorem failed_import_changes_nothing (file : option stored) (w : world) :
  (forall arr : list animation, file <> Some (Text_array arr)) ->
  result (fileInput_change file) w = Ret tt /\
  kept (after (fileInput_change file) w) = kept w /\
  w_mode (after (fileInput_change file) w) = w_mode w /\
  (file = None -> after (fileInput_change file) w = w) /\
  (file <> None ->
   exists msg : string,
     added (fileInput_change file) w = [E_alert ("Import failed: " +:+ msg)]).
Proof.
  intros Hno.
  destruct file as [[arr | | |] |];
    try (contradiction (Hno arr); reflexivity);
    (split; [reflexivity |]);
    (split; [destruct w; reflexivity |]);
    (split; [destruct w; reflexivity |]);
    (split; [try discriminate; reflexivity |]);
    try (intros Hne; contradiction Hne; reflexivity);
    intros _; eexists; destruct w; unfold added; cbn;
    rewrite drop_app_length; reflexivity.
Qed.

End Editor.

(** ** Mode and playback *)

#[export] Instance same_mode_shown_cosmetic :
  Cosmetic (same (fun w => (w_mode w, w_keyframes_shown w))).
Proof. split; intros []; reflexivity. Qed.

Section Playback.
Context `{!Leaflet, !Turf, !JSMath}.

Hint Resolve playAnimation_respects : frame.

(** X15.  [setMode] sets the mode and makes the keyframe markers
    visible in editor mode and hidden in viewer mode, calling
    [map.addLayer] or [map.removeLayer] only when the visibility has to
    change; registry, sidebar and storage are not touched; and two
    clicks on the mode toggle bring back the mode. *)
Theorem setMode_shows_keyframes_in_editor_only (m : mode) (w : world) :
  let shown := match m with editor => true | viewer => false end in
  w_mode (after (setMode m) w) = m /\
  w_keyframes_shown (after (setMode m) w) = shown /\
  kept (after (setMode m) w) = kept w /\
  added (setMode m) w =
    (if bool_decide (w_keyframes_shown w = shown) then []
     else [if shown then E_map_addLayer keyframeLayer
           else E_map_removeLayer keyframeLayer]) /\
  w_mode (after modeToggle_click (after modeToggle_click w)) = w_mode w.
Proof.
  destruct w as [? ? [|] [|] ? ? ? ? ? lg]; destruct m;
    unfold added, modeToggle_click, setMode, hide_keyframes, show_keyframes;
    run_script; cbn; rewrite ?drop_app_length, ?drop_all; repeat split; reflexivity.
Qed.

Lemma btnPlayAll_runs (fuel : nat) (w : world) :
  btnPlayAll fuel w =
  match for_each (w_animations w) (fun a => playAnimation fuel a ;; sleep 500)
                 (after prologue w) with
  | (Ret _, w2) => (setMode editor ;; show_keyframes) w2
  | (Throw e, w2) => (Throw e, w2)
  | (Pending, w2) => (Pending, w2)
  end.
Proof.
  destruct w as [? ? [|] ? ? ? ? ? ? ?];
    unfold btnPlayAll, prologue, hide_keyframes, setMode, hide_keyframes;
    cbv [mbind mret M_bind M_ret bind ret get modify when emit clearLayers after
         set_log set_keyframes_shown set_mode];
    cbn [w_keyframes_shown w_animations snd];
    reflexivity.
Qed.

Lemma playback_keeps_mode (fuel : nat) (l : list animation) :
  preserves (fun w => (w_mode w, w_keyframes_shown w))
            (for_each l (fun a => playAnimation fuel a ;; sleep 500)).
Proof. unfold sleep. frame. Qed.

Lemma prologue_mode (w : world) :
  w_mode (after prologue w) = viewer /\ w_keyframes_shown (after prologue w) = false.
Proof.
  destruct w as [? ? [|] ? ? ? ? ? ? ?];
    unfold prologue, hide_keyframes, setMode, hide_keyframes; run_script;
    split; reflexivity.
Qed.

(** X16.  Play All gives the editor back exactly when playback runs to
    its end: if its promise resolves the mode is editor again and the
    keyframe markers are shown; if an entry fails, or never finishes,
    the mode is left at viewer and the keyframe markers stay hidden. *)
Theorem btnPlayAll_restores_editor_iff_completed (fuel : nat) (w : world) :
  match result (btnPlayAll fuel) w with
  | Ret _ =>
      w_mode (after (btnPlayAll fuel) w) = editor /\
      w_keyframes_shown (after (btnPlayAll fuel) w) = true
  | _ =>
      w_mode (after (btnPlayAll fuel) w) = viewer /\
      w_keyframes_shown (after (btnPlayAll fuel) w) = false
  end.
Proof.
  pose proof (playback_keeps_mode fuel (w_animations w) (after prologue w)) as Hk.
  destruct (prologue_mode w) as [Hm Hs]. unfold same in Hk. rewrite Hm, Hs in Hk.
  remember (after prologue w) as w1 eqn:Ew1.
  unfold result, after. rewrite btnPlayAll_runs, <- Ew1.
  unfold after in Hk.
  destruct (for_each _ _ w1) as [[[] | e |] w2]; cbn [fst snd] in *;
    injection Hk as Hm2 Hs2; try (split; assumption).
  destruct w2 as [? ? ks ? ? ? ? ? ? ?]. cbn in Hm2, Hs2. subst.
  unfold setMode, show_keyframes. run_script. split; reflexivity.
Qed.

Lemma for_each_ret {A} (l : list A) (body : A -> M unit) (w : world) :
  result (for_each l body) w = Ret tt ->
  forall a : A, a ∈ l -> exists w' : world, result (body a) w' = Ret tt.
Proof.
  revert w. induction l as [| x l IH]; intros w Hret a Ha.
  - inversion Ha.
  - cbn [for_each] in Hret. unfold result in Hret. cbv [mbind M_bind bind] in Hret.
    destruct (body x w) as [[[] | e |] w1] eqn:E; cbn [fst] in Hret; try discriminate.
    apply elem_of_cons in Ha as [-> | Ha].
    + exists w. unfold result. rewrite E. reflexivity.
    + apply (IH w1); assumption.
Qed.

(** X17.  A route entry with fewer than two points cannot be played:
    [playAnimation] still moves the map to the bounds of its points and
    waits for the move, then fails with the error of [drawRoute],
    [Need at least 2 points], having drawn nothing; and while the
    registry holds such an entry, which an import can bring in, the
    promise of Play All never resolves. *)
Theorem short_route_aborts_playback
    (fuel : nat) (a : animation) (pts : list coord) (speed : jsnumber)
    (color : jsstring) (w : world) :
  a_params a = P_route pts speed color ->
  (length pts < 2)%nat ->
  result (playAnimation fuel a) w = Throw (Error "Need at least 2 points") /\
  added (playAnimation fuel a) w =
    [E_fitBounds (pad (latLngBounds (toLatLng <$> pts)) 0.2) (mkMove FLY_DURATION None);
     E_await_moveend] /\
  (a ∈ w_animations w -> result (btnPlayAll fuel) w <> Ret tt).
Proof.
  intros Hp Hlen.
  assert (Hthrow : forall w0 : world,
            (playAnimation fuel a w0).1 = Throw (Error "Need at least 2 points")).
  { intros w0. unfold playAnimation. rewrite Hp.
    destruct pts as [| p0 [| p1 pts]]; cbn [length] in Hlen; try lia;
      destruct w0; unfold fitBounds, drawRoute; run_script; reflexivity. }
  split; [apply Hthrow |].
  split.
  { unfold added, playAnimation. rewrite Hp.
    destruct pts as [| p0 [| p1 pts]]; cbn [length] in Hlen; try lia;
      destruct w; unfold fitBounds, drawRoute; run_script;
      rewrite drop_app_length; reflexivity. }
  intros Hin Hret.
  unfold result in Hret. rewrite btnPlayAll_runs in Hret.
  destruct (for_each _ _ (after prologue w)) as [[[] | e |] w2] eqn:E;
    cbn [fst] in Hret; try discriminate.
  assert (Hfor : result (for_each (w_animations w)
                   (fun a => playAnimation fuel a ;; sleep 500)) (after prologue w) = Ret tt).
  { unfold result. rewrite E. reflexivity. }
  destruct (for_each_ret _ _ _ Hfor a Hin) as [w' Hbody].
  unfold result in Hbody. cbv [mbind M_bind bind] in Hbody.
  specialize (Hthrow w').
  destruct (playAnimation fuel a w') as [[[] | e' |] w3]; cbn [fst] in *; discriminate.
Qed.

Lemma marker_run (fuel : nat) (a : animation) (point : coord) (color : jsstring) (w : world) :
  a_params a = P_marker point color ->
  playAnimation fuel a w =
  (Ret tt,
   set_log (fun l => l ++ [E_sleep 500])
     (set_log (fun l => l ++ [E_addLayer animationLayer
         (L_circleMarker (toLatLng (normalizeCoord point))
                       (Some (str_or color "#ff0000")) "#000" None)])
       (set_view (toLatLng point, Fin 16) None
          (set_log (fun l => l ++ [E_await_moveend])
            (set_view (w_view w) (Some (toLatLng point, Fin 16))
              (set_log (fun l => l ++ [E_flyTo (toLatLng point) (Fin 16)
                                                (mkMove FLY_DURATION None)]) w)))))).
Proof.
  intros Hp. unfold playAnimation. rewrite Hp. destruct w. reflexivity.
Qed.

(** X18.  A marker entry is played by flying to its stored point at
    zoom 16, waiting for the move, dropping one marker and waiting
    500 ms.  The marker is put at the point after normalisation, the
    map is centred on the point as stored; for a point whose second
    number is a latitude (at most 90 in absolute value) the marker is
    therefore at the centre of the final view. *)
Theorem marker_entry_is_dropped_at_view_centre
    (fuel : nat) (a : animation) (point : coord) (color : jsstring) (w : world) :
  a_params a = P_marker point color ->
  result (playAnimation fuel a) w = Ret tt /\
  added (playAnimation fuel a) w =
    [E_flyTo (toLatLng point) (Fin 16) (mkMove FLY_DURATION None);
     E_await_moveend;
     E_addLayer animationLayer
       (L_circleMarker (toLatLng (normalizeCoord point))
                       (Some (str_or color "#ff0000")) "#000" None);
     E_sleep 500] /\
  w_view (after (playAnimation fuel a) w) = (toLatLng point, Fin 16) /\
  (Qabs (snd point) <= 90 ->
   fst (w_view (after (playAnimation fuel a) w)) = toLatLng (normalizeCoord point)).
Proof.
  intros Hp. unfold added, result, after. rewrite (marker_run fuel a point color w Hp).
  cbn [fst snd]. destruct w as [v tg ks md an al st fl nw lg].
  cbn [set_view set_log w_view w_log fst].
  rewrite <- ?app_assoc, drop_app_length. cbn [app].
  split; [reflexivity |]. split; [reflexivity |]. split; [reflexivity |].
  intros Hlat. rewrite (normalizeCoord_valid_lat _ Hlat). reflexivity.
Qed.

Lemma circle_run (fuel : nat) (a : animation) (centre : coord) (radius : jsnumber)
    (color : jsstring) (w : world) :
  a_params a = P_circle centre radius color ->
  let r := Num.or_else (Number radius) 500 in
  let c := normalizeCoord centre in
  let b := circle_bounds c r in
  exists (w1 : world) (rest : list event),
  playAnimation fuel a w = (Ret tt, w1) /\
  w_log w1 =
     w_log w ++
       E_fitBounds b (mkMove FLY_DURATION (Some (40, 40)))
       :: E_await_moveend
       :: E_addLayer animationLayer
            (L_circle (toLatLng c) (Fin r) (Some "#f1c40f") false None)
       :: rest.
Proof.
  intros Hp r c b. unfold playAnimation. rewrite Hp. fold r c. fold b.
  destruct w as [v tg ks md an al st fl nw lg].
  eexists _, _. split; [reflexivity |].
  cbn [w_view w_target w_keyframes_shown w_mode w_animations w_animList
       w_storage w_storage_full w_now w_log fst snd set_log set_view].
  rewrite <- !app_assoc. reflexivity.
Qed.

Lemma Qmin4_le (a b c d : Q) :
  let m := Qmin (Qmin (Qmin a b) c) d in
  m <= a /\ m <= b /\ m <= c /\ m <= d.
Proof.
  intros m. unfold m.
  pose proof (Q.le_min_l (Qmin (Qmin a b) c) d).
  pose proof (Q.le_min_r (Qmin (Qmin a b) c) d).
  pose proof (Q.le_min_l (Qmin a b) c).
  pose proof (Q.le_min_r (Qmin a b) c).
  pose proof (Q.le_min_l a b).
  pose proof (Q.le_min_r a b).
  repeat split; lra.
Qed.

Lemma Qmax4_ge (a b c d : Q) :
  let m := Qmax (Qmax (Qmax a b) c) d in
  a <= m /\ b <= m /\ c <= m /\ d <= m.
Proof.
  intros m. unfold m.
  pose proof (Q.le_max_l (Qmax (Qmax a b) c) d).
  pose proof (Q.le_max_r (Qmax (Qmax a b) c) d).
  pose proof (Q.le_max_l (Qmax a b) c).
  pose proof (Q.le_max_r (Qmax a b) c).
  pose proof (Q.le_max_l a b).
  pose proof (Q.le_max_r a b).
  repeat split; lra.
Qed.

Lemma circle_bounds_enclose (c : coord) (r : Q) :
  let extentKm := (r + Qmax 200 (Math_round (r * 0.12))) / 1000 in
  exists sw ne : LatLng,
    circle_bounds c r = latLngBounds [sw; ne] /\
    (r + 200) / 1000 <= extentKm /\
    Forall (fun bearing =>
              let p := turf_destination c extentKm bearing in
              lng sw <= fst p /\ fst p <= lng ne /\
              lat sw <= snd p /\ snd p <= lat ne)
           [0; 90; 180; 270].
Proof.
  intros extentKm. unfold circle_bounds. cbv zeta. fold extentKm.
  eexists _, _. split; [reflexivity |].
  split.
  { unfold extentKm. pose proof (Q.le_max_l 200 (Math_round (r * 0.12))) as Hb.
    apply Qmult_le_compat_r; [lra | vm_compute; discriminate]. }
  cbn [lng lat].
  pose proof (Qmin4_le (fst (turf_destination c extentKm 0))
                       (fst (turf_destination c extentKm 90))
                       (fst (turf_destination c extentKm 180))
                       (fst (turf_destination c extentKm 270))) as (L1 & L2 & L3 & L4).
  pose proof (Qmax4_ge (fst (turf_destination c extentKm 0))
                       (fst (turf_destination c extentKm 90))
                       (fst (turf_destination c extentKm 180))
                       (fst (turf_destination c extentKm 270))) as (U1 & U2 & U3 & U4).
  pose proof (Qmin4_le (snd (turf_destination c extentKm 0))
                       (snd (turf_destination c extentKm 90))
                       (snd (turf_destination c extentKm 180))
                       (snd (turf_destination c extentKm 270))) as (M1 & M2 & M3 & M4).
  pose proof (Qmax4_ge (snd (turf_destination c extentKm 0))
                       (snd (turf_destination c extentKm 90))
                       (snd (turf_destination c extentKm 180))
                       (snd (turf_destination c extentKm 270))) as (V1 & V2 & V3 & V4).
  cbv zeta in *.
  repeat (constructor; [repeat split; assumption |]). constructor.
Qed.

(** X19.  A circle entry is played so that the whole circle is in
    view: the radius is the stored one, or 500 when that is missing,
    0 or [NaN]; the map is fitted, with 40 pixels of padding, to
    bounds that enclose the points at a distance of the radius plus a
    buffer of at least 200 m to the north, east, south and west of the
    normalised centre; after the move the outline of the circle with
    that centre and radius is drawn. *)
Theorem circle_playback_fits_the_whole_circle
    (fuel : nat) (a : animation) (centre : coord) (radius : jsnumber)
    (color : jsstring) (w : world) :
  a_params a = P_circle centre radius color ->
  let r := Num.or_else (Number radius) 500 in
  let c := normalizeCoord centre in
  let extentKm := (r + Qmax 200 (Math_round (r * 0.12))) / 1000 in
  exists (sw ne : LatLng) (rest : list event),
    added (playAnimation fuel a) w =
      E_fitBounds (latLngBounds [sw; ne]) (mkMove FLY_DURATION (Some (40, 40)))
        :: E_await_moveend
        :: E_addLayer animationLayer
             (L_circle (toLatLng c) (Fin r) (Some "#f1c40f") false None)
        :: rest /\
    (r + 200) / 1000 <= extentKm /\
    Forall (fun bearing =>
              let p := turf_destination c extentKm bearing in
              lng sw <= fst p /\ fst p <= lng ne /\
              lat sw <= snd p /\ snd p <= lat ne)
           [0; 90; 180; 270].
Proof.
  intros Hp r c extentKm.
  destruct (circle_run fuel a centre radius color w Hp) as (w1 & rest & E & Hlog).
  destruct (circle_bounds_enclose c r) as (sw & ne & Eb & Hext & Hall).
  fold r c in Hlog. rewrite Eb in Hlog.
  exists sw, ne, rest. split; [| split; [exact Hext | exact Hall]].
  apply added_intro. unfold after. rewrite E. exact Hlog.
Qed.

End Playback.

(** ** The frames of [drawRoute] *)

Section Frames.
Context `{!Leaflet, !Turf, !JSMath}.

Variables (line : list coord) (drawn marker : layer).



(** What the runs of [step] log. *)
Lemma step_travel (T s : Q) :
  forall (fuel : nat) (t : Q) (w : world),
  exists es : list event,
    w_log (after (step fuel line drawn marker (Fin T) (Fin s) (Fin t)) w) = w_log w ++ es /\
    Forall (drawn_within line T) es /\
    (result (step fuel line drawn marker (Fin T) (Fin s) (Fin t)) w = Ret tt ->
     ends_at line T es).
Proof.
  induction fuel as [| fuel IH]; intros t w.
  - exists []. cbn. rewrite app_nil_r. repeat split; [constructor | discriminate].
  - unfold after, result. rewrite step_S. cbn [Num.add Num.gtb].
    destruct (Qle_bool (t + s) T) eqn:E1; cbn [negb Num.geb].
    + destruct (Qle_bool T (t + s)) eqn:E2.
      * eexists. split; [destruct w; reflexivity |].
        apply Qle_bool_iff in E1. apply Qle_bool_iff in E2.
        split.
        { constructor; [exists (t + s); split; [exact E1 | reflexivity] |].
          constructor; [exists (t + s); split; [exact E1 | reflexivity] |].
          constructor. }
        intros _. exists [], drawn, marker, (t + s).
        split; [apply Qle_antisym; assumption | reflexivity].
      * match goal with
        | |- context [step fuel _ _ _ _ _ ?t2 ?w2] =>
            destruct (IH (t + s) w2) as (es & El & Hw & He)
        end.
        unfold after, result in El, He.
        exists ([E_addLatLng drawn (toLatLng (interpolateAlong line (Fin (t + s))));
                 E_setLatLng marker (toLatLng (interpolateAlong line (Fin (t + s))));
                 E_nextFrame stepMs] ++ es).
        split; [rewrite El; destruct w; cbn; rewrite <- app_assoc; reflexivity |].
        apply Qle_bool_iff in E1.
        split.
        { constructor; [exists (t + s); split; [exact E1 | reflexivity] |].
          constructor; [exists (t + s); split; [exact E1 | reflexivity] |].
          constructor; [exact I | exact Hw]. }
        intros Hret. destruct (He Hret) as (pre & d & m & t' & Ht' & ->).
        eexists (_ ++ pre), d, m, t'. split; [exact Ht' |].
        rewrite <- app_assoc. reflexivity.
    + assert (E3 : Qle_bool T T = true) by (apply Qle_bool_iff; lra).
      rewrite E3.
      eexists. split; [destruct w; reflexivity |].
      split.
      { constructor; [exists T; split; [lra | reflexivity] |].
        constructor; [exists T; split; [lra | reflexivity] |].
        constructor. }
      intros _. exists [], drawn, marker, T. split; reflexivity.
Qed.

End Frames.

Section RouteFrames.
Context `{!Leaflet, !Turf, !JSMath}.


(** X21.  [drawRoute] never draws beyond the route: at any finite
    speed and after any number of runs of [step], every position given
    to the drawn line and to the moving marker lies at a distance of
    at most the length of the route along it; and when the promise
    resolves, the last positions given to both are at the full length,
    the end of the route. *)
Theorem drawRoute_stays_on_route_and_ends_at_its_end
    (fuel : nat) (points : list coord) (v : Q) (opts : options) (w : world) :
  (2 <= length points)%nat ->
  let T := turf_length points * 1000 in
  Forall (drawn_within points T)
         (added (drawRoute fuel points (Some (Some (Fin v))) opts) w) /\
  (result (drawRoute fuel points (Some (Some (Fin v))) opts) w = Ret tt ->
   ends_at points T (added (drawRoute fuel points (Some (Some (Fin v))) opts) w)).
Proof.
  intros Hlen T.
  destruct points as [| p0 [| p1 rest]]; cbn [length] in Hlen; try lia.
  set (points := p0 :: p1 :: rest) in *.
  set (colour := str_or (o_color opts) "#f1c40f").
  set (d := L_polyline [] colour).
  set (m := L_circleMarker (toLatLng p0) (Some colour) "#000" None).
  set (w1 := set_log (fun l => l ++ [E_addLayer animationLayer d;
                                     E_addLayer animationLayer m]) w).
  assert (E : drawRoute fuel points (Some (Some (Fin v))) opts w =
              step fuel points d m (Fin T) (Fin (v * (inject_Z stepMs / 1000))) (Fin 0) w1).
  { destruct w. unfold drawRoute. cbn [default Number points]. run_script. reflexivity. }
  destruct (step_travel points d m T (v * (inject_Z stepMs / 1000)) fuel 0 w1)
    as (es & El & Hw & He).
  assert (Ea : added (drawRoute fuel points (Some (Some (Fin v))) opts) w =
               [E_addLayer animationLayer d; E_addLayer animationLayer m] ++ es).
  { apply added_intro. unfold after in *. rewrite E, El.
    unfold w1. destruct w. cbn. rewrite <- app_assoc. reflexivity. }
  rewrite Ea. split.
  - constructor; [exact I |]. constructor; [exact I |]. exact Hw.
  - unfold result in *. rewrite E. intros Hret.
    destruct (He Hret) as (pre & d' & m' & t & Ht & ->).
    exists ([E_addLayer animationLayer d; E_addLayer animationLayer m] ++ pre), d', m', t.
    split; [exact Ht |]. rewrite <- app_assoc. reflexivity.
Qed.

End RouteFrames.

(** ** Reordering back and forth *)

Section Reorder.
Context `{!Leaflet, !Turf, !JSMath}.

Lemma moved_up (id : string) (l : list animation) (i : nat) (a b : animation) :
  list_find (fun x => a_id x = id) l = Some (S i, a) ->
  l !! i = Some b ->
  moved id (-1) l = <[i := a]> (<[S i := b]> l).
Proof.
  intros Hfind Hb. unfold moved. rewrite Hfind.
  apply lookup_lt_Some in Hb as Hlt.
  replace (Z.of_nat (S i) + -1)%Z with (Z.of_nat i) by lia.
  rewrite decide_False by lia. rewrite Nat2Z.id, Hb. reflexivity.
Qed.

Lemma moved_down (id : string) (l : list animation) (i : nat) (a b : animation) :
  list_find (fun x => a_id x = id) l = Some (i, a) ->
  l !! S i = Some b ->
  moved id 1 l = <[S i := a]> (<[i := b]> l).
Proof.
  intros Hfind Hb. unfold moved. rewrite Hfind.
  apply lookup_lt_Some in Hb as Hlt.
  replace (Z.of_nat i + 1)%Z with (Z.of_nat (S i)) by lia.
  rewrite decide_False by lia. rewrite Nat2Z.id, Hb. reflexivity.
Qed.

(** X22.  Move down undoes move up: when the entry found under an id
    is not the first of the registry, moving it up and then down
    leaves the registry as it was; and when the entry below it has
    another id, moving it down and then up does. *)
Theorem moving_back_restores_the_registry
    (id : string) (i : nat) (a b : animation) (w : world) :
  (list_find (fun x => a_id x = id) (w_animations w) = Some (S i, a) ->
   w_animations (after (moveAnimationById id 1) (after (moveAnimationById id (-1)) w)) =
   w_animations w) /\
  (list_find (fun x => a_id x = id) (w_animations w) = Some (i, a) ->
   w_animations w !! S i = Some b ->
   a_id b ≠ id ->
   w_animations (after (moveAnimationById id (-1)) (after (moveAnimationById id 1) w)) =
   w_animations w).
Proof.
  rewrite !moveAnimationById_moved. set (l := w_animations w). split.
  - intros Hfind.
    apply list_find_Some in Hfind as Hf. destruct Hf as (Ha & Hid & Hfirst).
    apply lookup_lt_Some in Ha as Hlt.
    destruct (lookup_lt_is_Some_2 l i) as [b' Hb]; [lia |].
    rewrite (moved_up id l i a b' Hfind Hb).
    set (l1 := <[i := a]> (<[S i := b']> l)).
    assert (Hfind1 : list_find (fun x => a_id x = id) l1 = Some (i, a)).
    { apply list_find_Some. split; [| split; [exact Hid |]].
      - unfold l1. apply list_lookup_insert_eq. rewrite length_insert. lia.
      - intros j y Hj Hji. unfold l1 in Hj.
        rewrite !list_lookup_insert_ne in Hj by lia.
        apply (Hfirst j y Hj). lia. }
    assert (Hb1 : l1 !! S i = Some b').
    { unfold l1. rewrite list_lookup_insert_ne by lia.
      apply list_lookup_insert_eq. exact Hlt. }
    rewrite (moved_down id l1 i a b' Hfind1 Hb1). unfold l1.
    rewrite list_insert_insert_eq.
    rewrite (list_insert_insert_ne _ i (S i)) by lia.
    rewrite list_insert_insert_eq.
    rewrite (list_insert_id l i b' Hb). apply list_insert_id, Ha.
  - intros Hfind Hb Hne.
    apply list_find_Some in Hfind as Hf. destruct Hf as (Ha & Hid & Hfirst).
    apply lookup_lt_Some in Hb as Hlt.
    rewrite (moved_down id l i a b Hfind Hb).
    set (l1 := <[S i := a]> (<[i := b]> l)).
    assert (Hfind1 : list_find (fun x => a_id x = id) l1 = Some (S i, a)).
    { apply list_find_Some. split; [| split; [exact Hid |]].
      - unfold l1. apply list_lookup_insert_eq. rewrite length_insert. exact Hlt.
      - intros j y Hj Hji. unfold l1 in Hj.
        rewrite list_lookup_insert_ne in Hj by lia.
        destruct (decide (j = i)) as [-> | Hji'].
        + rewrite list_lookup_insert_eq in Hj by lia. injection Hj as <-. exact Hne.
        + rewrite list_lookup_insert_ne in Hj by lia.
          apply (Hfirst j y Hj). lia. }
    assert (Hb1 : l1 !! i = Some b).
    { unfold l1. rewrite list_lookup_insert_ne by lia.
      apply list_lookup_insert_eq. lia. }
    rewrite (moved_up id l1 i a b Hfind1 Hb1). unfold l1.
    rewrite list_insert_insert_eq.
    rewrite (list_insert_insert_ne _ (S i) i) by lia.
    rewrite list_insert_insert_eq.
    rewrite (list_insert_id l (S i) b Hb). apply list_insert_id, Ha.
Qed.

(** X23.  The entries that the capturing buttons make at different
    readings of the clock have different ids, whichever buttons made
    them. *)
Theorem entries_of_different_times_have_different_ids
    (b b' : capture_button) (pts pts' : list coord) (now now' : N) (a a' : animation) :
  entry_of b pts now = Some a ->
  entry_of b' pts' now' = Some a' ->
  now <> now' ->
  a_id a <> a_id a'.
Proof.
  intros Ha Ha' Hne Heq. apply Hne.
  assert (Hanim : forall n n' : N, "anim-" +:+ pretty n = "anim-" +:+ pretty n' -> n = n').
  { intros n n' E. apply (inj (String.app "anim-")) in E. apply (inj pretty) in E. exact E. }
  assert (Hpoly : forall n n' : N,
            "polygon-" +:+ pretty n = "polygon-" +:+ pretty n' -> n = n').
  { intros n n' E. apply (inj (String.app "polygon-")) in E. apply (inj pretty) in E. exact E. }
  assert (Hmark : forall n n' : N,
            "marker-" +:+ pretty n = "marker-" +:+ pretty n' -> n = n').
  { intros n n' E. apply (inj (String.app "marker-")) in E. apply (inj pretty) in E. exact E. }
  destruct b, b'; cbn [entry_of] in Ha, Ha';
    destruct pts as [| p0 [| p1 [| p2 pts]]]; try discriminate Ha;
    destruct pts' as [| q0 [| q1 [| q2 pts']]]; try discriminate Ha';
    injection Ha as <-; injection Ha' as <-; cbn [a_id] in Heq;
    first [ apply Hanim, Heq | apply Hpoly, Heq | apply Hmark, Heq | discriminate Heq ].
Qed.

End Reorder.

(** ** Geocoding and bearing *)

Section GeocodingProperties.
Context `{!JSMath}.

Lemma geocodeTry_loop_some (net : service) (qs : list string) (r : num * num) :
  forall n : nat,
  geocodeTry_loop net n qs = Ret (Some r) <->
  exists (i : nat) (q : string),
    qs !! i = Some q /\ geocode net (n + i) q = Ret r /\
    forall (j : nat) (q' : string),
      (j < i)%nat -> qs !! j = Some q' -> exists e : error, geocode net (n + j) q' = Throw e.
Proof.
  induction qs as [| q0 qs IH]; intros n; cbn [geocodeTry_loop].
  - split; [discriminate |]. intros (i & q & Hq & _). discriminate.
  - destruct (geocode net n q0) as [r0 | e0 |] eqn:E0.
    + split.
      * intros [= ->]. exists 0%nat, q0. rewrite Nat.add_0_r.
        repeat split; [exact E0 |]. intros j q' Hj. lia.
      * intros (i & q & Hq & Hr & Hbefore). destruct i as [| i].
        -- cbn in Hq. injection Hq as <-. rewrite Nat.add_0_r in Hr. congruence.
        -- destruct (Hbefore 0%nat q0) as [e He]; [lia | reflexivity |].
           rewrite Nat.add_0_r in He. congruence.
    + rewrite IH. split.
      * intros (i & q & Hq & Hr & Hbefore). exists (S i), q.
        split; [exact Hq |]. split; [rewrite <- Nat.add_succ_comm; exact Hr |].
        intros [| j] q' Hj Hq'.
        -- cbn in Hq'. injection Hq' as <-. exists e0. rewrite Nat.add_0_r. exact E0.
        -- rewrite <- Nat.add_succ_comm. apply Hbefore; [lia | exact Hq'].
      * intros (i & q & Hq & Hr & Hbefore). destruct i as [| i].
        -- cbn in Hq. injection Hq as <-. rewrite Nat.add_0_r in Hr. congruence.
        -- exists i, q. split; [exact Hq |].
           split; [rewrite Nat.add_succ_comm; exact Hr |].
           intros j q' Hj Hq'. rewrite Nat.add_succ_comm.
           apply (Hbefore (S j)); [lia | exact Hq'].
    + split; [discriminate |].
      intros (i & q & Hq & Hr & Hbefore). destruct i as [| i].
      * cbn in Hq. injection Hq as <-. rewrite Nat.add_0_r in Hr. congruence.
      * destruct (Hbefore 0%nat q0) as [e He]; [lia | reflexivity |].
        rewrite Nat.add_0_r in He. congruence.
Qed.

Lemma geocodeTry_loop_none (net : service) (qs : list string) :
  forall n : nat,
  geocodeTry_loop net n qs = Ret None <->
  forall (i : nat) (q : string),
    qs !! i = Some q -> exists e : error, geocode net (n + i) q = Throw e.
Proof.
  induction qs as [| q0 qs IH]; intros n; cbn [geocodeTry_loop].
  - split; [| reflexivity]. intros _ i q Hq. discriminate.
  - destruct (geocode net n q0) as [r0 | e0 |] eqn:E0.
    + split; [discriminate |]. intros Hall.
      destruct (Hall 0%nat q0) as [e He]; [reflexivity |].
      rewrite Nat.add_0_r in He. congruence.
    + rewrite IH. split.
      * intros Hall [| i] q Hq.
        -- cbn in Hq. injection Hq as <-. exists e0. rewrite Nat.add_0_r. exact E0.
        -- rewrite <- Nat.add_succ_comm. apply Hall. exact Hq.
      * intros Hall i q Hq. rewrite Nat.add_succ_comm. apply (Hall (S i)). exact Hq.
    + split; [discriminate |]. intros Hall.
      destruct (Hall 0%nat q0) as [e He]; [reflexivity |].
      rewrite Nat.add_0_r in He. congruence.
Qed.

Lemma geocodeTry_loop_no_throw (net : service) (qs : list string) :
  forall (n : nat) (e : error), geocodeTry_loop net n qs <> Throw e.
Proof.
  induction qs as [| q0 qs IH]; intros n e; cbn [geocodeTry_loop]; [discriminate |].
  destruct (geocode net n q0); [discriminate | apply IH | discriminate].
Qed.

(** X24.  [geocodeTry] never fails, whatever the search service does:
    a single query is tried as the list of that query; the result is
    that of the first query, in the order given, whose [geocode]
    succeeds, all queries before it having failed; and it is [null]
    exactly when every query fails, an empty list included. *)
Theorem geocodeTry_returns_first_success
    (net : service) (n : nat) (qs : list string) (q0 : string) :
  (forall (arg : queries) (e : error), geocodeTry net n arg <> Throw e) /\
  geocodeTry net n (One q0) = geocodeTry net n (Many [q0]) /\
  (forall r : num * num,
     geocodeTry net n (Many qs) = Ret (Some r) <->
     exists (i : nat) (q : string),
       qs !! i = Some q /\ geocode net (n + i) q = Ret r /\
       forall (j : nat) (q' : string),
         (j < i)%nat -> qs !! j = Some q' ->
         exists e : error, geocode net (n + j) q' = Throw e) /\
  (geocodeTry net n (Many qs) = Ret None <->
   forall (i : nat) (q : string),
     qs !! i = Some q -> exists e : error, geocode net (n + i) q = Throw e).
Proof.
  split; [intros arg e; apply geocodeTry_loop_no_throw |].
  split; [reflexivity |].
  split; [intros r; apply geocodeTry_loop_some | apply geocodeTry_loop_none].
Qed.

End GeocodingProperties.

Lemma js_rem_range (x m : Q) : 0 <= x -> 0 < m -> 0 <= js_rem x m /\ js_rem x m < m.
Proof.
  intros Hx Hm. unfold js_rem.
  assert (Hq : 0 <= x / m) by (apply Qle_shift_div_l; lra).
  assert (E : Qle_bool 0 (x / m) = true) by (apply Qle_bool_iff; exact Hq).
  rewrite E.
  pose proof (Qfloor_le (x / m)) as Hlo.
  pose proof (Qlt_floor (x / m)) as Hhi.
  rewrite inject_Z_plus in Hhi. change (inject_Z 1) with 1 in Hhi.
  assert (Ex : m * (x / m) == x) by (field; lra).
  set (f := inject_Z (Qfloor (x / m))) in *.
  assert (H1 : m * f <= m * (x / m)) by (apply Qmult_le_l; assumption).
  assert (H2 : m * (x / m) < m * (f + 1)) by (apply Qmult_lt_l; assumption).
  rewrite Ex in H1, H2. split; lra.
Qed.

Section BearingProperties.
Context `{!JSTrig}.

(** X25.  The bearing that the fallback for [turf.bearing] returns is
    a compass bearing: at least 0 and less than 360 degrees, for any
    two points. *)
Theorem bearing_is_a_compass_bearing (p1 p2 : coord) :
  0 <= bearing p1 p2 /\ bearing p1 p2 < 360.
Proof.
  unfold bearing. cbv zeta.
  match goal with |- context [Math_atan2 ?y ?x] =>
    pose proof (Math_atan2_range y x) as [Hlo Hhi]; set (a := Math_atan2 y x) in *
  end.
  pose proof Math_PI_pos as Hpi.
  assert (Hb : -180 <= a * 180 / Math_PI /\ a * 180 / Math_PI <= 180).
  { split.
    - apply Qle_shift_div_l; [exact Hpi | lra].
    - apply Qle_shift_div_r; [exact Hpi | lra]. }
  apply js_rem_range; lra.
Qed.

End BearingProperties.

(** * The script on the concrete host *)

Section Concrete.
Import Demo.

(** [splitMap] returns nothing. *)
Lemma splitMap_returns_no_identifier :
  valid_call (Call_splitMap southport mainBeach (Some (Some "A")) no_opts) /\
  ~ returns_identifier 0 (Call_splitMap southport mainBeach (Some (Some "A")) no_opts) w0.
Proof.
  split; [exact I |].
  intros [id E]. vm_compute in E. discriminate E.
Qed.

(** A polygon is drawn without moving the map. *)
Lemma polygon_not_played_as_described : ~ plays_as_described 0 a_polygon w0.
Proof.
  intros (t & settle & Ht & E).
  unfold added in E at 1. vm_compute in E.
  injection E as <- _. discriminate Ht.
Qed.

Lemma normalizeCoord_witness :
  (Qabs (-27.9671) <= 90 /\ 90 < Qabs 153.4) /\
  normalizeCoord (-27.9671, 153.4) = (153.4, -27.9671).
Proof.
  assert (Hsw : Qabs (-27.9671) <= 90 /\ 90 < Qabs 153.4)
    by (split; vm_compute; congruence).
  split; [exact Hsw |].
  exact (proj1 (normalizeCoord_spec (-27.9671) 153.4) Hsw).
Defined.



Lemma storage_round_trip_witness :
  Forall (fun a => serialisable a = true) (w_animations w3) /\
  w_storage_full w3 = false /\
  w_animations (after (saveAnimationsToStorage ;; loadAnimationsFromStorage) w3) =
  [a_circle; a_split; a_polygon].
Proof.
  assert (Hser : Forall (fun a => serialisable a = true) (w_animations w3))
    by (repeat constructor).
  split; [exact Hser |]. split; [reflexivity |].
  exact (proj2 (storage_round_trip w3 (after saveAnimationsToStorage w3)
                  Hser eq_refl eq_refl)).
Defined.

Lemma moveAnimationById_witness :
  list_find (fun a => a_id a = "anim-2") (w_animations w3) = Some (1%nat, a_split) /\
  w_animations (after (moveAnimationById "anim-2" (-1)) w3) !! 0%nat = Some a_split /\
  w_animations (after (moveAnimationById "anim-2" (-1)) w3) !! 1%nat = Some a_circle.
Proof.
  assert (Hfind : list_find (fun a => a_id a = "anim-2") (w_animations w3)
                  = Some (1%nat, a_split)) by (vm_compute; reflexivity).
  split; [exact Hfind |].
  destruct (moveAnimationById_spec "anim-2" (-1) w3) as (_ & _ & Hswap & _).
  destruct (Hswap 1%nat a_split Hfind (or_introl eq_refl)
                  ltac:(cbn; lia)) as (Hj & Hi & _).
  split; [exact Hj | exact Hi].
Defined.

Lemma cancel_witness :
  click (Btn_split (Some "A") None)
        [Click_map (mkLatLng (-27.967894) 153.4135598); Click_cancel] w3 = (Ret tt, w3).
Proof.
  exact (proj1 (proj2 (cancel_leaves_registry (Btn_split (Some "A") None)
                         [mkLatLng (-27.967894) 153.4135598] [] w3
                         ltac:(discriminate)))).
Defined.


Lemma primitives_return_witness :
  valid_call (Call_drawPolygon [southport; mainBeach; busStop] None (opts_id "polygon-3")) /\
  result (call 0 (Call_drawPolygon [southport; mainBeach; busStop] None
                                   (opts_id "polygon-3"))) w0 =
  Ret (V_string "polygon-3").
Proof.
  assert (Hv : valid_call (Call_drawPolygon [southport; mainBeach; busStop] None
                                            (opts_id "polygon-3"))) by (cbn; lia).
  split; [exact Hv |].
  exact (primitives_return_values 0 _ w0 Hv).
Defined.

Lemma playback_witness :
  a_type a_polygon = "polygon" /\
  forallb (fun e => negb (is_transition e)) (added (playAnimation 0 a_polygon) w0) = true.
Proof.
  split; [reflexivity |].
  destruct (playback_engine_sequence 0 a_polygon w0) as (_ & _ & _ & Hpoly & _).
  exact (Hpoly eq_refl).
Defined.

(** A radius that is [NaN] comes back from storage as [null]. *)
Example NaN_radius_is_not_restored :
  w_animations (after (saveAnimationsToStorage ;; loadAnimationsFromStorage)
                      (set_animations [a_nan] w0)) =
  [mkAnimation "anim-4" (P_circle southport None (Some "gold"))].
Proof. vm_compute. reflexivity. Qed.

(** With a speed of zero the route is still being drawn after a
    thousand frames. *)
Example zero_speed_pending :
  result (drawRoute 1000 [southport; mainBeach] (Some (Some (Fin 0))) no_opts) w0 = Pending.
Proof. vm_compute. reflexivity. Qed.

End Concrete.

(** * The rest of the script in an editing session *)

Section ConcreteSession.
Import Demo Session.

Lemma registry_in_sync : in_sync w_sync.
Proof. reflexivity. Defined.

Lemma registry_distinct_ids : NoDup (a_id <$> w_animations w_sync).
Proof.
  repeat (constructor;
          [intros Hin;
           repeat (apply elem_of_cons in Hin as [Hin | Hin]; [discriminate Hin |]);
           inversion Hin |]).
  constructor.
Defined.

(** Two clicks are not enough for a polygon. *)
Lemma click_needs_enough_points_witness :
  capture true [] [Click_map at_southport; Click_map at_mainBeach; Click_stop] =
    Ret [southport; mainBeach] /\
  kept (after (click (Btn_polygon (Some "purple"))
                     [Click_map at_southport; Click_map at_mainBeach; Click_stop]) w_sync) =
  kept w_sync.
Proof.
  split; [reflexivity |].
  apply (proj1 (click_needs_enough_points (Btn_polygon (Some "purple"))
                  [Click_map at_southport; Click_map at_mainBeach; Click_stop]
                  [southport; mainBeach] w_sync eq_refl)).
  cbn. lia.
Defined.

(** Three clicks make a polygon of the three points. *)
Lemma click_stores_clicked_points_witness :
  w_animations (after (click (Btn_polygon (Some "purple"))
                  [Click_map at_southport; Click_map at_mainBeach; Click_map at_busStop;
                   Click_stop]) w_sync) =
  registry ++ [mkAnimation "polygon-1700000000000"
                 (P_polygon [southport; mainBeach; busStop] (Some "purple"))].
Proof.
  apply (proj2 (proj2 (click_stores_clicked_points at_southport at_mainBeach [at_busStop] []
                         None None (Some "purple") w_sync))).
  discriminate.
Defined.



Lemma storage_failure_is_contained_witness :
  w_storage_full w_full = true /\
  w_storage (after (perform (Act_click (Btn_circle (Some "250") (Some "gold"))
                                       [Click_map at_busStop])) w_full) = ∅.
Proof.
  split; [reflexivity |].
  apply (proj1 (proj2 (storage_failure_is_contained
                         (Act_click (Btn_circle (Some "250") (Some "gold"))
                                    [Click_map at_busStop]) w_full) eq_refl)).
Defined.

Lemma btnClear_witness :
  w_storage_full w_sync = false /\
  w_storage (after (btnClear true) w_sync) !! STORAGE_KEY = Some (Text_array []).
Proof.
  split; [reflexivity |].
  apply (proj2 (proj2 (proj2 (proj2 (btnClear_spec true w_sync))))). reflexivity.
Defined.

Lemma delBtn_click_witness :
  w_animations w_sync !! 1%nat = Some a_split /\
  w_animations (after (delBtn_click a_split 1 [] []) w_sync) = [a_circle; a_polygon] /\
  in_sync (after (delBtn_click a_split 1 [] []) w_sync).
Proof.
  split; [reflexivity |].
  destruct (delBtn_click_removes_its_entry a_split 1 [] [] w_sync
              registry_in_sync registry_distinct_ids eq_refl)
    as (_ & Ha & Hs & _).
  split; [exact Ha | exact Hs].
Defined.

(** Play on a row made before its entry was replaced plays the entry
    of the registry. *)
Lemma playBtn_click_witness :
  a_id a_split = a_id a_split_edited /\
  playBtn_click 0 a_split_edited w_sync = playAnimation 0 a_split w_sync.
Proof.
  split; [reflexivity |].
  apply (proj1 (proj2 (playBtn_click_plays_current_entry 0 a_split_edited w_sync))
           1%nat a_split); [reflexivity | reflexivity |].
  intros [| j] a Hj Hlt; [| lia].
  cbn in Hj. injection Hj as <-. discriminate.
Defined.


Lemma failed_import_witness :
  (forall arr : list animation, Some Text_not_array <> Some (Text_array arr)) /\
  kept (after (fileInput_change (Some Text_not_array)) w_sync) = kept w_sync.
Proof.
  assert (Hno : forall arr : list animation, Some Text_not_array <> Some (Text_array arr))
    by (intros arr; discriminate).
  split; [exact Hno |].
  apply (proj1 (proj2 (failed_import_changes_nothing (Some Text_not_array) w_sync Hno))).
Defined.

Lemma short_route_witness :
  a_params a_short = P_route [southport] (Some (Fin 120)) (Some "yellow") /\
  (length [southport] < 2)%nat /\
  result (playAnimation 10 a_short) w0 = Throw (Error "Need at least 2 points").
Proof.
  split; [reflexivity |]. split; [cbn; lia |].
  apply (proj1 (short_route_aborts_playback 10 a_short [southport] (Some (Fin 120))
                  (Some "yellow") w0 eq_refl ltac:(cbn; lia))).
Defined.

Lemma marker_entry_witness :
  a_params a_marker = P_marker busStop (Some "#ff0000") /\
  Qabs (snd busStop) <= 90 /\
  fst (w_view (after (playAnimation 0 a_marker) w0)) = toLatLng (normalizeCoord busStop).
Proof.
  assert (Hlat : Qabs (snd busStop) <= 90) by (vm_compute; discriminate).
  split; [reflexivity |]. split; [exact Hlat |].
  apply (proj2 (proj2 (proj2 (marker_entry_is_dropped_at_view_centre
                                0 a_marker busStop (Some "#ff0000") w0 eq_refl)))).
  exact Hlat.
Defined.

Lemma circle_playback_witness :
  a_params a_circle = P_circle southport (Some (Fin 500)) (Some "gold") /\
  exists (sw ne : LatLng) (rest : list event),
    added (playAnimation 0 a_circle) w0 =
      E_fitBounds (latLngBounds [sw; ne]) (mkMove FLY_DURATION (Some (40, 40)))
        :: E_await_moveend
        :: E_addLayer animationLayer
             (L_circle (toLatLng (normalizeCoord southport))
                       (Fin (Num.or_else (Number (Some (Fin 500))) 500))
                       (Some "#f1c40f") false None)
        :: rest.
Proof.
  split; [reflexivity |].
  destruct (circle_playback_fits_the_whole_circle 0 a_circle southport (Some (Fin 500))
              (Some "gold") w0 eq_refl) as (sw & ne & rest & E & _).
  exists sw, ne, rest. exact E.
Defined.


Lemma drawRoute_stays_on_route_witness :
  (2 <= length [southport; mainBeach])%nat /\
  Forall (drawn_within [southport; mainBeach] (turf_length [southport; mainBeach] * 1000))
         (added (drawRoute 2 [southport; mainBeach] (Some (Some (Fin 500))) no_opts) w0).
Proof.
  assert (Hlen : (2 <= length [southport; mainBeach])%nat) by (cbn; lia).
  split; [exact Hlen |].
  apply (proj1 (drawRoute_stays_on_route_and_ends_at_its_end 2 [southport; mainBeach] 500
                  no_opts w0 Hlen)).
Defined.

Lemma moving_back_witness :
  list_find (fun x => a_id x = "anim-2") (w_animations w_sync) = Some (1%nat, a_split) /\
  w_animations (after (moveAnimationById "anim-2" 1)
                      (after (moveAnimationById "anim-2" (-1)) w_sync)) = registry.
Proof.
  split; [reflexivity |].
  apply (proj1 (moving_back_restores_the_registry "anim-2" 0 a_split a_split w_sync)).
  reflexivity.
Defined.

Lemma different_ids_witness :
  (1700000000000 <> 1700000000001)%N /\
  "anim-1700000000000" <> "anim-1700000000001".
Proof.
  assert (Hne : (1700000000000 <> 1700000000001)%N) by discriminate.
  split; [exact Hne |].
  apply (entries_of_different_times_have_different_ids
           (Btn_circle None None) (Btn_split None None)
           [southport] [southport; mainBeach] 1700000000000 1700000000001
           _ _ eq_refl eq_refl Hne).
Defined.

(** The first query is answered with nothing, the second one is
    found. *)
Lemma geocodeTry_witness :
  geocodeTry nominatim 0 (Many ["Atlantis"; "Southport"; ""]) =
  Ret (Some (Fin 153, Fin 27)).
Proof.
  apply (proj1 (proj2 (proj2 (geocodeTry_returns_first_success nominatim 0
                                ["Atlantis"; "Southport"; ""] "")))).
  exists 1%nat, "Southport". split; [reflexivity |]. split; [reflexivity |].
  intros [| j] q' Hj Hq'; [| lia].
  cbn in Hq'. injection Hq' as <-. eexists. reflexivity.
Defined.

(** From Southport to Main Beach the coarse trigonometry says due
    south. *)
Example bearing_southport_mainBeach : bearing southport mainBeach == 180.
Proof. vm_compute. reflexivity. Qed.

End ConcreteSession.
